(** * Oil 3-2-1 crack spread: the numeric pipeline of generate_oil_analysis.py

    A shallow embedding of [load_price_history], [compute_crack],
    [compute_percentile], [plot_crack_time_series], [build_scenario_table]
    and [write_market_note], with the pandas and numpy operations they call
    written out on lists. *)

From Stdlib Require Import ZArith Floats.SpecFloat.
From stdpp Require Import gmap strings list sorting.

Open Scope Z_scope.
Open Scope nat_scope.

(** ** float64

    Python floats and numpy float64 cells are IEEE 754 binary64 numbers:
    [spec_float] at precision 53 and maximal exponent 1024, every operation
    rounding to nearest, ties to even.  A missing value is NaN. *)

Module F64.

Definition float := spec_float.

Definition prec : Z := 53.
Definition emax : Z := 1024.

Definition nan : float := S754_nan.

Definition is_nan (x : float) : bool :=
  match x with S754_nan => true | _ => false end.

Definition opp : float -> float := SFopp.
Definition add : float -> float -> float := SFadd prec emax.
Definition sub : float -> float -> float := SFsub prec emax.
Definition mul : float -> float -> float := SFmul prec emax.
Definition div : float -> float -> float := SFdiv prec emax.

Definition eqb : float -> float -> bool := SFeqb.
Definition ltb : float -> float -> bool := SFltb.
Definition leb : float -> float -> bool := SFleb.

(** An integer as a float ([float(n)], or numpy's cast of an int64). *)
Definition of_Z (z : Z) : float := binary_normalize prec emax z 0 false.
Definition of_nat (n : nat) : float := of_Z (Z.of_nat n).

(** The decimal literal [n / 10^k]: the binary64 number nearest to it, which
    is what the correctly rounded quotient of the two integers gives. *)
Definition dec (n : Z) (k : nat) : float := div (of_Z n) (of_Z (10 ^ Z.of_nat k)).

#[global] Arguments opp : simpl never.
#[global] Arguments add : simpl never.
#[global] Arguments sub : simpl never.
#[global] Arguments mul : simpl never.
#[global] Arguments div : simpl never.
#[global] Arguments eqb : simpl never.
#[global] Arguments ltb : simpl never.
#[global] Arguments leb : simpl never.
#[global] Arguments of_Z : simpl never.
#[global] Arguments of_nat : simpl never.
#[global] Arguments dec : simpl never.

End F64.

Abbreviation float := F64.float.

(** A valid entry of a series is one that is not missing. *)
Abbreviation valid x := (F64.is_nan x = false).

Declare Scope f64_scope.
Delimit Scope f64_scope with f64.
Infix "+" := F64.add : f64_scope.
Infix "-" := F64.sub : f64_scope.
Infix "*" := F64.mul : f64_scope.
Infix "/" := F64.div : f64_scope.

(** ** Series of floats: the fill operations of pandas

    A numeric column is a list of floats, position [i] being row [i] after
    [reset_index(drop=True)]. *)

Module Series.

Import F64.

(** Index and value of the first valid (non-NaN) entry of [l], positions
    counted from [n]. *)
Fixpoint first_valid_from (n : nat) (l : list float) : option (nat * float) :=
  match l with
  | [] => None
  | y :: l' => if is_nan y then first_valid_from (S n) l' else Some (n, y)
  end.

(** Index and value of the last valid entry of [l], positions counted from [n]. *)
Fixpoint last_valid_from (n : nat) (l : list float) : option (nat * float) :=
  match l with
  | [] => None
  | y :: l' =>
      match last_valid_from (S n) l' with
      | Some r => Some r
      | None => if is_nan y then None else Some (n, y)
      end
  end.

(** [find_valid_index(how="first")]; the length when nothing is valid. *)
Definition first_valid_index (ys : list float) : nat :=
  match first_valid_from 0 ys with
  | Some (j, _) => j
  | None => length ys
  end.

(** The valid neighbours of position [i]: what the binary search of
    [np.interp] over the valid positions finds around [x = i]. *)
Definition prev_valid (ys : list float) (i : nat) : option (nat * float) :=
  last_valid_from 0 (take i ys).

Definition next_valid (ys : list float) (i : nat) : option (nat * float) :=
  first_valid_from i (drop i ys).

(** numpy's interpolation between [(xj, yj)] and [(xk, yk)] at [x]:
    [slope * (x - xj) + yj], and when that is NaN the same from the right
    end. *)
Definition lin_interp (xj : nat) (yj : float) (xk : nat) (yk : float) (x : nat) : float :=
  let slope := ((yk - yj) / (of_nat xk - of_nat xj))%f64 in
  let r := (slope * (of_nat x - of_nat xj) + yj)%f64 in
  if is_nan r then
    let r' := (slope * (of_nat x - of_nat xk) + yk)%f64 in
    if is_nan r' && eqb yj yk then yj else r'
  else r.

(** The interpolant at the [k]-th position of a run of [n] missing values
    that follows the entries [pre] and the valid value [a] and is followed by
    the valid value [b]. *)
Definition interior (pre : list float) (a b : float) (n k : nat) : float :=
  lin_interp (length pre) a (length pre + n + 1) b (length pre + 1 + k).

(** [np.interp(i, valid positions, valid values)] at an invalid position:
    left of the first valid point the first value, right of the last one the
    last value, the line through the two neighbours in between. *)
Definition np_interp (ys : list float) (i : nat) : float :=
  match prev_valid ys i, next_valid ys i with
  | Some (j, yj), Some (k, yk) => lin_interp j yj k yk i
  | None, Some (_, yk) => yk
  | Some (_, yj), None => yj
  | None, None => nan
  end.

(** [_interp_limit(invalid, limit, 0)]: position [i] is beyond the limit when
    [invalid[max(0, i - limit) : i + 1]] is all true. *)
Definition beyond_limit (limit : nat) (ys : list float) (i : nat) : bool :=
  forallb is_nan (take (S i - (i - limit)) (drop (i - limit) ys)).

(** The NaN positions that [interpolate] leaves alone in the forward
    direction: the leading ones and those beyond the limit. *)
Definition preserve_nan (limit : nat) (ys : list float) (i : nat) : bool :=
  (i <? first_valid_index ys) || beyond_limit limit ys i.

(** [Series.interpolate(limit=limit)]: method linear on the positions,
    direction forward, no limit area. *)
Definition interpolate (limit : nat) (ys : list float) : list float :=
  if negb (existsb (fun y => negb (is_nan y)) ys) then ys
  else if forallb (fun y => negb (is_nan y)) ys then ys
  else
    imap (fun i y =>
            if is_nan y then
              if preserve_nan limit ys i then nan else np_interp ys i
            else y) ys.

(** [Series.ffill()]: every NaN takes the last valid value before it. *)
Fixpoint ffill_from (c : float) (l : list float) : list float :=
  match l with
  | [] => []
  | y :: l' => let c' := if is_nan y then c else y in c' :: ffill_from c' l'
  end.

Definition ffill (ys : list float) : list float := ffill_from nan ys.

(** [Series.bfill()]: every NaN takes the first valid value after it. *)
Fixpoint bfill (l : list float) : list float :=
  match l with
  | [] => []
  | y :: l' =>
      let r := bfill l' in
      (if is_nan y then match r with [] => nan | z :: _ => z end else y) :: r
  end.

(** [s.interpolate(limit=7).ffill().bfill()] *)
Definition fill_gaps (ys : list float) : list float :=
  bfill (ffill (interpolate 7 ys)).

End Series.

(** ** Argsort

    [nargsort(items, kind="quicksort", ascending, na_position="last")] of
    pandas, which [sort_values] calls for a single key: the missing keys are
    set aside and come last in their original order; the others are sorted
    ascending with the strict comparison of their type, and for a descending
    sort they are reversed before and after.  numpy's quicksort sorts a run
    of at most 16 keys by insertion; the sort is written as an insertion sort
    throughout, so equal keys keep their input order (in a longer array
    numpy leaves the order of equal keys open). *)

Section Argsort.

Context {K : Type}.
Variable ltb : K -> K -> bool.
Variable isna : K -> bool.

Fixpoint insert (x : nat * K) (l : list (nat * K)) : list (nat * K) :=
  match l with
  | [] => [x]
  | y :: l' => if ltb y.2 x.2 then y :: insert x l' else x :: y :: l'
  end.

Fixpoint isort (l : list (nat * K)) : list (nat * K) :=
  match l with
  | [] => []
  | x :: l' => insert x (isort l')
  end.

Definition enumerate (items : list K) : list (nat * K) :=
  zip (seq 0 (length items)) items.

Definition non_nans (items : list K) : list (nat * K) :=
  List.filter (fun p => negb (isna p.2)) (enumerate items).

(** [nan_idx], with the keys. *)
Definition nan_pairs (items : list K) : list (nat * K) :=
  List.filter (fun p => isna p.2) (enumerate items).

(** The sorted part of the indexer, with the keys. *)
Definition sorted_pairs (asc : bool) (items : list K) : list (nat * K) :=
  if asc then isort (non_nans items)
  else reverse (isort (reverse (non_nans items))).

Definition nargsort (asc : bool) (items : list K) : list nat :=
  (sorted_pairs asc items).*1 ++ (nan_pairs items).*1.

(** No entry is strictly smaller than the one before it. *)
Definition ascending (p q : nat * K) : Prop := ltb q.2 p.2 = false.

(** The pair holds a position of [items] and the key found there. *)
Definition at_position (items : list K) (p : nat * K) : Prop :=
  items !! p.1 = Some p.2.


End Argsort.

(** ** DataFrames

    A column has one of the dtypes the pipeline meets: datetime64 (a
    Timestamp as its integer value, [None] for NaT), float64 (integer columns
    are held as floats too), or object, the dtype [read_csv] gives a column
    with text in it (its empty cells are NaN floats).  A frame is the ordered
    list of its labelled columns; the row index is positional throughout. *)

Inductive obj :=
  | ONum (x : float)
  | OStr (s : string).

Inductive column :=
  | DateCol (d : list (option Z))
  | FloatCol (v : list float)
  | ObjCol (o : list obj).

Abbreviation frame := (list (string * column)).

Inductive exn :=
  | ValueError_missing_required (csv_path : string) (missing : gset string)
  | ValueError_must_contain
  | KeyError (label : string)
  | TypeError
  | IndexError.

Inductive result (A : Type) :=
  | Ok (a : A)
  | Raise (e : exn).
Arguments Ok {A} a.
Arguments Raise {A} e.

Module Frame.

Import F64.

Definition col_length (c : column) : nat :=
  match c with
  | DateCol d => length d
  | FloatCol v => length v
  | ObjCol o => length o
  end.

(** [df.columns] *)
Definition columns (df : frame) : list string := df.*1.

(** [df[label]] *)
Fixpoint getitem (df : frame) (label : string) : option column :=
  match df with
  | [] => None
  | (l, c) :: df' => if decide (l = label) then Some c else getitem df' label
  end.

(** [df[label] = c]: the column is replaced where it stands, or added last. *)
Fixpoint setitem (df : frame) (label : string) (c : column) : frame :=
  match df with
  | [] => [(label, c)]
  | (l, c') :: df' =>
      if decide (l = label) then (l, c) :: df' else (l, c') :: setitem df' label c
  end.

(** [len(df)] *)
Definition nrows (df : frame) : nat :=
  match df with
  | [] => 0
  | (_, c) :: _ => col_length c
  end.

(** Every column has [n] rows. *)
Definition has_rows (n : nat) (df : frame) : Prop :=
  Forall (fun lc => col_length lc.2 = n) df.

(** Rows picked by position, [col.take(indexer)]. *)
Definition take_rows {A : Type} (indexer : list nat) (l : list A) : list A :=
  omap (fun i => l !! i) indexer.

Definition col_take (indexer : list nat) (c : column) : column :=
  match c with
  | DateCol d => DateCol (take_rows indexer d)
  | FloatCol v => FloatCol (take_rows indexer v)
  | ObjCol o => ObjCol (take_rows indexer o)
  end.

(** The strict comparisons and missing-value tests of the three dtypes. *)
Definition date_ltb (a b : option Z) : bool :=
  match a, b with
  | Some x, Some y => (x <? y)%Z
  | _, _ => false
  end.

Definition date_isna (a : option Z) : bool :=
  match a with None => true | Some _ => false end.

Definition obj_ltb (a b : obj) : bool :=
  match a, b with
  | ONum x, ONum y => ltb x y
  | OStr s, OStr t => String.ltb s t
  | _, _ => false
  end.

Definition obj_isna (a : obj) : bool :=
  match a with ONum x => is_nan x | OStr _ => false end.

Definition col_argsort (ascending : bool) (c : column) : list nat :=
  match c with
  | DateCol d => nargsort date_ltb date_isna ascending d
  | FloatCol v => nargsort ltb is_nan ascending v
  | ObjCol o => nargsort obj_ltb obj_isna ascending o
  end.

(** [df.sort_values(by, ascending=ascending).reset_index(drop=True)] *)
Definition sort_values (by_ : string) (ascending : bool) (df : frame) : result frame :=
  match getitem df by_ with
  | None => Raise (KeyError by_)
  | Some key =>
      let indexer := col_argsort ascending key in
      Ok (prod_map id (col_take indexer) <$> df)
  end.

End Frame.

(** The error monad of the calls that may raise. *)
#[global] Instance result_ret : MRet result := fun _ a => Ok a.
#[global] Instance result_bind : MBind result := fun _ _ k r =>
  match r with
  | Ok a => k a
  | Raise e => Raise e
  end.

(** ** The loader, [load_price_history] *)

Module Loader.

Import F64 Series Frame.

Definition required : gset string :=
  {[ "date"%string; "crude"%string; "rbob"%string; "ulsd"%string ]}.

(** The columns that are cast to numbers and filled. *)
Definition price_labels : list string := ["crude"; "rbob"; "ulsd"]%string.

(** [df[label]], a [KeyError] when the label is absent. *)
Definition get (df : frame) (label : string) : result column :=
  match getitem df label with
  | Some c => Ok c
  | None => Raise (KeyError label)
  end.

(** [df[label]] as floats; the column is float64 wherever this is used. *)
Definition get_floats (df : frame) (label : string) : result (list float) :=
  c ← get df label;
  match c with
  | FloatCol v => Ok v
  | _ => Raise TypeError
  end.

Section WithParser.

(** The float that [pd.to_numeric] reads in a text cell, NaN when the text is
    not a number ([errors="coerce"]). *)
Variable str_to_float : string -> float.

Definition coerce (o : obj) : float :=
  match o with
  | ONum x => x
  | OStr s => str_to_float s
  end.

(** [pd.to_numeric(col, errors="coerce")].  A float column is returned as it
    is, an object column is parsed cell by cell, and a datetime column is
    viewed as its integers (NaT being the least int64). *)
Definition to_numeric (c : column) : list float :=
  match c with
  | FloatCol v => v
  | ObjCol o => coerce <$> o
  | DateCol d => (fun t => of_Z (default (- 2 ^ 63)%Z t)) <$> d
  end.

(** What the loader makes of a price column: its rows in date order, read as
    numbers, gaps filled. *)
Definition clean (indexer : list nat) (c : column) : column :=
  FloatCol (fill_gaps (to_numeric (col_take indexer c))).

(** [df[label] = pd.to_numeric(df[label], errors="coerce")] *)
Definition cast_numeric (label : string) (df : frame) : result frame :=
  c ← get df label;
  Ok (setitem df label (FloatCol (to_numeric c))).

(** [df[label] = df[label].interpolate(limit=7).ffill().bfill()] *)
Definition fill_column (label : string) (df : frame) : result frame :=
  v ← get_floats df label;
  Ok (setitem df label (FloatCol (fill_gaps v))).

(** [Series.max()] of a datetime column: NaT is skipped, and the result is
    NaT when nothing is left. *)
Definition date_max (d : list (option Z)) : option Z :=
  foldr (fun a m =>
           match a, m with
           | Some x, Some y => Some (Z.max x y)
           | Some x, None => Some x
           | None, _ => m
           end) None d.

Definition col_last_row (c : column) : column :=
  match c with
  | DateCol d => DateCol (drop (length d - 1) d)
  | FloatCol v => FloatCol (drop (length v - 1) v)
  | ObjCol o => ObjCol (drop (length o - 1) o)
  end.

(** [df.iloc[[-1]].copy()]: the one-row frame of the last row. *)
Definition iloc_last (df : frame) : result frame :=
  if decide (nrows df = 0) then Raise IndexError
  else Ok (prod_map id col_last_row <$> df).

(** [col1] followed by [col2]; they have the same dtype wherever the loader
    concatenates, and [col1] is kept alone otherwise. *)
Definition col_append (c1 c2 : column) : column :=
  match c1, c2 with
  | DateCol a, DateCol b => DateCol (a ++ b)
  | FloatCol a, FloatCol b => FloatCol (a ++ b)
  | ObjCol a, ObjCol b => ObjCol (a ++ b)
  | _, _ => c1
  end.

(** [pd.concat([df, last], ignore_index=True)] for two frames with the same
    labels in the same order. *)
Definition concat (df last : frame) : frame :=
  zip_with (fun lc lc' => (lc.1, col_append lc.2 lc'.2)) df last.

(** The column that the extension to [today] builds under label [l]. *)
Definition extended (today : Z) (l : string) (c : column) : column :=
  col_append c (if decide (l = "date"%string) then DateCol [Some today] else col_last_row c).

(** The body of [if today is not None:], with [today] already a Timestamp. *)
Definition extend_to (today : Z) (df : frame) : result frame :=
  dates ← get df "date";
  match dates with
  | DateCol d =>
      if date_ltb (date_max d) (Some today) then
        last ← iloc_last df;
        let last := setitem last "date" (DateCol [Some today]) in
        Ok (concat df last)
      else Ok df
  | _ => Raise TypeError
  end.

(** [load_price_history(csv_path, today)], where [df] is the frame that
    [pd.read_csv(csv_path, parse_dates=["date"])] returned and [today] is the
    Timestamp that [pd.to_datetime(today)] gives, if an argument was passed.
    The frame is private to the call, so its updates are written as
    rebinding. *)
Definition load_price_history (csv_path : string) (df : frame) (today : option Z)
  : result frame :=
  if negb (bool_decide (required ⊆ list_to_set (columns df))) then
    Raise (ValueError_missing_required csv_path
             (required ∖ list_to_set (columns df)))
  else
    df ← sort_values "date" true df;
    df ← cast_numeric "crude" df;
    df ← cast_numeric "rbob" df;
    df ← cast_numeric "ulsd" df;
    df ← fill_column "crude" df;
    df ← fill_column "rbob" df;
    df ← fill_column "ulsd" df;
    match today with
    | None => Ok df
    | Some t => extend_to t df
    end.

End WithParser.

End Loader.

(** ** The heap of frames and the file system

    [compute_crack] and [write_market_note] receive a reference to a frame of
    their caller and work on copies.  A reference is a location of the heap;
    the file system maps a path to the text last written there. *)

Abbreviation loc := positive.

Record world := World {
  heap : gmap loc frame;
  dirs : gset string;
  files : gmap string string
}.

Definition set_heap (h : gmap loc frame) (w : world) : world :=
  World h (dirs w) (files w).

(** Computations that read and update the world and may raise. *)
Definition M (A : Type) : Type := world -> result A * world.

#[global] Instance M_ret : MRet M := fun _ a w => (Ok a, w).
#[global] Instance M_bind : MBind M := fun _ _ k m w =>
  match m w with
  | (Ok a, w') => k a w'
  | (Raise e, w') => (Raise e, w')
  end.

Definition raise {A : Type} (e : exn) : M A := fun w => (Raise e, w).

Definition lift {A : Type} (r : result A) : M A := fun w => (r, w).

(** The frame a reference points to (a reference is never dangling). *)
Definition deref (p : loc) : M frame :=
  fun w => (Ok (default [] (heap w !! p)), w).

(** [df.copy()]: a new frame with the same columns. *)
Definition copy (p : loc) : M loc :=
  fun w =>
    let q := fresh (dom (heap w)) in
    (Ok q, set_heap (<[q := default [] (heap w !! p)]> (heap w)) w).

(** [df[label] = c], in place. *)
Definition store_column (p : loc) (label : string) (c : column) : M unit :=
  fun w =>
    (Ok tt, set_heap (<[p := Frame.setitem (default [] (heap w !! p)) label c]> (heap w)) w).

(** ** The spread calculator, [compute_crack] *)

Module Calculator.

Import F64 Frame.

Definition wanted : gset string :=
  {[ "crude"%string; "rbob"%string; "ulsd"%string; "date"%string ]}.

Definition obj_float (o : obj) : option float :=
  match o with
  | ONum x => Some x
  | OStr _ => None
  end.

(** The numbers of a column that arithmetic can work on.  A float column is
    its values; on an object column the operations run cell by cell and the
    subtraction raises a [TypeError] at the first text cell; a Timestamp
    cannot be multiplied by a number. *)
Definition col_floats (c : column) : result (list float) :=
  match c with
  | FloatCol v => Ok v
  | ObjCol o =>
      match mapM obj_float o with
      | Some v => Ok v
      | None => Raise TypeError
      end
  | DateCol _ => Raise TypeError
  end.

(** [(2 * rbob + 1 * ulsd) * 42 - 3 * crude] on scalars... *)
Definition crack321 (crude rbob ulsd : float) : float :=
  ((of_Z 2 * rbob + of_Z 1 * ulsd) * of_Z 42 - of_Z 3 * crude)%f64.

(** ... and on columns, operation by operation as pandas evaluates it. *)
Definition crack_series (crude rbob ulsd : list float) : list float :=
  zip_with sub
    ((fun x => x * of_Z 42)%f64 <$>
       zip_with add (mul (of_Z 2) <$> rbob) (mul (of_Z 1) <$> ulsd))
    (mul (of_Z 3) <$> crude).

Definition column_at (p : loc) (label : string) : M (list float) :=
  df ← deref p;
  lift (Loader.get df label ≫= col_floats).

Definition compute_crack (prices : loc) : M loc :=
  df ← copy prices;
  f ← deref df;
  if negb (bool_decide (wanted ⊆ list_to_set (columns f))) then
    raise ValueError_must_contain
  else
    rbob ← column_at df "rbob";
    ulsd ← column_at df "ulsd";
    crude ← column_at df "crude";
    _ ← store_column df "crack" (FloatCol (crack_series crude rbob ulsd));
    mret df.

(** What a call does: the frame is copied to a fresh location, and the copy
    gets its [crack] column unless a column is absent or not numeric. *)
Definition outcome (p : loc) (f : frame) (w : world) : result loc * world :=
  let q := fresh (dom (heap w)) in
  let w1 := set_heap (<[q := f]> (heap w)) w in
  if bool_decide (wanted ⊆ list_to_set (columns f)) then
    match Loader.get f "rbob" ≫= col_floats,
          Loader.get f "ulsd" ≫= col_floats,
          Loader.get f "crude" ≫= col_floats with
    | Ok rbob, Ok ulsd, Ok crude =>
        (Ok q,
         set_heap (<[q := setitem f "crack" (FloatCol (crack_series crude rbob ulsd))]>
                     (heap w)) w)
    | Raise e, _, _ | Ok _, Raise e, _ | Ok _, Ok _, Raise e => (Raise e, w1)
    end
  else (Raise ValueError_must_contain, w1).

End Calculator.

(** ** The percentile ranker, [compute_percentile] *)

Module Ranker.

Import F64.

(** [pd.Series(series).dropna()] *)
Definition dropna (series : list float) : list float :=
  List.filter (fun x => negb (is_nan x)) series.

(** [(arr <= value).sum()] *)
Definition count_le (arr : list float) (value : float) : nat :=
  length (List.filter (fun x => leb x value) arr).

Definition compute_percentile (series : list float) (value : float) : float :=
  let arr := dropna series in
  if decide (length arr = 0) then nan
  else (of_nat (count_le arr value) / of_nat (length arr) * of_Z 100)%f64.

End Ranker.

(** ** The scenario builder, [build_scenario_table] *)

Module Scenario.

Import F64 Frame.

Record row := Row { crude : float; rbob : float; ulsd : float; crack : float }.

Definition crude_moves : list float := [opp (of_Z 1); of_Z 0; of_Z 1].
Definition prod_moves : list float := [opp (dec 5 2); of_Z 0; dec 5 2].

(** The body of the inner loop. *)
Definition scenario (crude rbob ulsd dc dp : float) : row :=
  let c := (crude + dc)%f64 in
  let r := (rbob + dp)%f64 in
  let u := (ulsd + dp)%f64 in
  Row c r u ((of_Z 2 * r + u) * of_Z 42 - of_Z 3 * c)%f64.

(** The two loops: [scenarios] in the order of the appends. *)
Definition scenarios (crude rbob ulsd : float) : list row :=
  dc ← crude_moves; dp ← prod_moves; [scenario crude rbob ulsd dc dp].

(** [pd.DataFrame(scenarios)] *)
Definition DataFrame (rows : list row) : frame :=
  [ ("crude"%string, FloatCol (crude <$> rows));
    ("rbob"%string, FloatCol (rbob <$> rows));
    ("ulsd"%string, FloatCol (ulsd <$> rows));
    ("crack"%string, FloatCol (crack <$> rows)) ].

Definition build_scenario_table (crude rbob ulsd : float) : result frame :=
  sort_values "crack" false (DataFrame (scenarios crude rbob ulsd)).

(** The rows of a scenario frame, read back column by column. *)
Definition rows_of (df : frame) : list row :=
  match getitem df "crude", getitem df "rbob", getitem df "ulsd", getitem df "crack" with
  | Some (FloatCol c), Some (FloatCol r), Some (FloatCol u), Some (FloatCol k) =>
      zip_with (fun cr uk => Row cr.1 cr.2 uk.1 uk.2) (zip c r) (zip u k)
  | _, _, _, _ => []
  end.

End Scenario.

(** ** The note reporter, [write_market_note] *)

Module Reporter.

Import F64 Frame.

(** A citation: a [(label, url)] pair or a bare locator. *)
Inductive citation :=
  | Link (label url : string)
  | Bare (locator : string).

(** An entry of the last row, as [df.iloc[-1][label]] returns it. *)
Inductive scalar :=
  | SDate (d : option Z)
  | SFloat (x : float)
  | SObj (o : obj).

Definition col_last (c : column) : option scalar :=
  match c with
  | DateCol d => SDate <$> last d
  | FloatCol v => SFloat <$> last v
  | ObjCol o => SObj <$> last o
  end.

(** [latest[label]] for [latest = df.iloc[-1]], an [IndexError] when the
    frame has no row. *)
Definition latest_at (df : frame) (label : string) : result scalar :=
  if decide (nrows df = 0) then Raise IndexError
  else
    c ← Loader.get df label;
    match col_last c with
    | Some x => Ok x
    | None => Raise IndexError
    end.

(** [latest["crack"]], a float since [compute_crack] has just set the column. *)
Definition latest_crack (df : frame) : result float :=
  x ← latest_at df "crack";
  match x with
  | SFloat k => Ok k
  | _ => Raise TypeError
  end.

Section WithFormats.

(** [f"{x:.1f}"] *)
Variable fmt1 : float -> string.
(** [str(pd.to_datetime(x).date())], which raises on text that is no date *)
Variable date_text : scalar -> result string.
(** [Series.mean()] *)
Variable mean : list float -> float.
(** The directories that [mkdir(parents=True, exist_ok=True)] of the parent
    of a path makes sure exist. *)
Variable parents : string -> gset string.

(** The line of one citation. *)
Definition cite (r : citation) : string :=
  match r with
  | Link label url => "- [" +:+ label +:+ "](" +:+ url +:+ ")" +:+ "
"
  | Bare s => "- " +:+ s +:+ "
"
  end.

(** [note_path.parent.mkdir(parents=True, exist_ok=True)] and
    [note_path.write_text(text, encoding="utf-8")] *)
Definition write_text (path text : string) : M unit :=
  fun w => (Ok tt, World (heap w) (dirs w ∪ parents path) (<[path := text]> (files w))).

Definition write_market_note (prices : loc) (today : option Z) (note_path : string)
    (citation_refs : list citation) : M unit :=
  df ← copy prices;
  df ← Calculator.compute_crack df;
  f ← deref df;
  latest ← lift (latest_crack f);
  cracks ← Calculator.column_at df "crack";
  let pct := if is_nan latest then nan else Ranker.compute_percentile cracks latest in
  let m := mean cracks in
  latest_date ← lift (latest_at f "date");
  heading ← lift (date_text latest_date);
  let lines :=
    [ "# Market note — 3‑2‑1 crack overview (" +:+ heading +:+ ")" +:+ "
";
      "Today's 3‑2‑1 crack: **" +:+ fmt1 latest +:+
        " USD/bbl** (percentile: **" +:+ fmt1 pct +:+ "%** vs history)." +:+ "
";
      "3‑year average (approx): **" +:+ fmt1 m +:+
        " USD/bbl**. This note is automatically generated and should be edited before distribution." +:+ "
" ] ++
    match citation_refs with
    | [] => []
    | _ => ("
References:
") :: (cite <$> citation_refs)
    end in
  write_text note_path (String.concat "
" lines).

End WithFormats.

End Reporter.

(** ** Sample tables and the vocabulary of the statements *)

Section Vocabulary.

Import F64 Frame.

(** Thirty days of prices, [rbob] missing from the 11th to the 20th day. *)
Definition month : frame :=
  [ ("date"%string, DateCol (Some <$> seqZ 1 30));
    ("crude"%string, FloatCol (replicate 30 (of_Z 80)));
    ("rbob"%string,
      FloatCol (replicate 10 (of_Z 1) ++ replicate 10 nan ++ replicate 10 (of_Z 12)));
    ("ulsd"%string, FloatCol (replicate 30 (of_Z 3))) ].

(** The claim of a flat fill: the first half of the run holds the value
    before it and the second half the value after it. *)
Definition flat_filled (before after : float) (run : list float) : Prop :=
  forall k x, run !! k = Some x ->
    x = if k <? length run `div` 2 then before else after.


(** Two days of prices. *)
Definition two_days : frame :=
  [ ("date"%string, DateCol [Some 2%Z; Some 1%Z]);
    ("crude"%string, FloatCol [of_Z 81; of_Z 80]);
    ("rbob"%string, FloatCol [nan; dec 240 2]);
    ("ulsd"%string, FloatCol [dec 260 2; nan]) ].

(** One day of prices: crude 80, rbob 2.40, ulsd 2.60, and a [crack] column
    left at 0 by an earlier computation. *)
Definition one_day : frame :=
  [ ("date"%string, DateCol [Some 1%Z]);
    ("crude"%string, FloatCol [of_Z 80]);
    ("rbob"%string, FloatCol [dec 240 2]);
    ("ulsd"%string, FloatCol [dec 260 2]);
    ("crack"%string, FloatCol [of_Z 0]) ].

Definition one_day_world : world := World {[ 1%positive := one_day ]} ∅ ∅.

(** The [crack] column of the frame that a call returned. *)
Definition returned_crack (r : result loc * world) : option column :=
  match r.1 with
  | Ok q => f ← heap r.2 !! q; getitem f "crack"
  | Raise _ => None
  end.


End Vocabulary.

(** ** The chart, [plot_crack_time_series]

    The chart is the figure handed to [savefig]: the line, the levels of the
    two bands and of the median, and the marked point with its label.
    Drawing the figure and writing the file are matplotlib's.  The [crack]
    column is float64, as [compute_crack] leaves it, and the [date] column
    datetime64, as the loader leaves it; other dtypes are outside the
    model. *)

Module Plotter.

Import F64 Frame.

Inductive error :=
  | ValueError_must_include
  | Raised (e : exn)
  | Unmodelled_dtype.

Record figure := Figure {
  line_x : list (option Z);
  line_y : list float;
  p10 : float;
  p25 : float;
  p50 : float;
  p75 : float;
  p90 : float;
  point : option (option Z * float * string)
}.

Inductive outcome :=
  | Saved (fig : figure)
  | Failed (e : error).

(** Rows picked by a boolean mask, [col[mask]]. *)
Definition keep_rows {A : Type} (mask : list bool) (l : list A) : list A :=
  (List.filter fst (zip mask l)).*2.

Definition col_keep (mask : list bool) (c : column) : column :=
  match c with
  | DateCol d => DateCol (keep_rows mask d)
  | FloatCol v => FloatCol (keep_rows mask v)
  | ObjCol o => ObjCol (keep_rows mask o)
  end.

(** [col.notna()] *)
Definition col_notna (c : column) : list bool :=
  match c with
  | DateCol d => (fun a => negb (date_isna a)) <$> d
  | FloatCol v => (fun x => negb (is_nan x)) <$> v
  | ObjCol o => (fun a => negb (obj_isna a)) <$> o
  end.

(** [df.dropna(subset=[label])] *)
Definition dropna (label : string) (df : frame) : result frame :=
  c ← Loader.get df label;
  Ok (prod_map id (col_keep (col_notna c)) <$> df).

(** The rows of [df.loc[df["date"] == df["date"].max()]], date and crack. *)
Definition today_row (xs : list (option Z)) (ys : list float)
  : list (option Z * float) :=
  List.filter (fun r => bool_decide (is_Some r.1 /\ r.1 = Loader.date_max xs)) (zip xs ys).

Section WithLibraries.

(** [Series.quantile(q)] *)
Variable quantile : list float -> float -> float.
(** [f"{y:.1f}"] *)
Variable fmt1 : float -> string.

(** The figure of a sorted table without missing spreads. *)
Definition draw (xs : list (option Z)) (ys : list float) : figure :=
  Figure xs ys
    (quantile ys (dec 10 2)) (quantile ys (dec 25 2)) (quantile ys (dec 50 2))
    (quantile ys (dec 75 2)) (quantile ys (dec 90 2))
    match today_row xs ys with
    | [] => None
    | (x, y) :: _ => Some (x, y, fmt1 y +:+ " USD/bbl")
    end.

(** [plot_crack_time_series(prices, today, outpath)]: the figure saved to
    [outpath].  [today] is converted and not read again. *)
Definition plot_crack_time_series (prices : frame) (today : option Z)
    (outpath : string) : outcome :=
  if bool_decide ("date"%string ∉ columns prices \/ "crack"%string ∉ columns prices)
  then Failed ValueError_must_include
  else
    match sort_values "date" true prices ≫= dropna "crack" with
    | Raise e => Failed (Raised e)
    | Ok df =>
        match getitem df "date", getitem df "crack" with
        | Some (DateCol xs), Some (FloatCol ys) => Saved (draw xs ys)
        | _, _ => Failed Unmodelled_dtype
        end
    end.

End WithLibraries.

End Plotter.

(** ** Vocabulary of the further properties *)

Section FurtherVocabulary.

Import F64 Frame.

(** The frame of a successful result (the empty frame otherwise). *)
Definition loaded (r : result frame) : frame :=
  match r with
  | Ok f => f
  | Raise _ => []
  end.

(** No two rows have the same date. *)
Definition distinct_dates (d : list (option Z)) : Prop :=
  forall i j z, d !! i = Some (Some z) -> d !! j = Some (Some z) -> i = j.

(** The order of the dates along the time axis, NaT after every date. *)
Definition date_le (a b : option Z) : Prop :=
  match a, b with
  | Some x, Some y => (x <= y)%Z
  | None, Some _ => False
  | _, None => True
  end.

(** Prices of three days with their spread, the middle day without one. *)
Definition charted : frame :=
  [ ("date"%string, DateCol [Some 3%Z; Some 1%Z; Some 2%Z]);
    ("crack"%string, FloatCol [of_Z 30; nan; of_Z 20]) ].

(** Three rows, the middle one without a date. *)
Definition undated : frame :=
  [ ("date"%string, DateCol [Some 3%Z; None; Some 1%Z]);
    ("crude"%string, FloatCol [of_Z 82; of_Z 81; of_Z 80]);
    ("rbob"%string, FloatCol [nan; dec 250 2; dec 240 2]);
    ("ulsd"%string, FloatCol [nan; nan; nan]);
    ("note"%string, ObjCol [OStr "c"; OStr "b"; OStr "a"]) ].

(** The text of the note: the heading with the date, the line of the latest
    spread and its percentile, the line of the average, and the references. *)
Definition note_text (fmt1 : float -> string) (heading : string)
    (latest pct m : float) (citation_refs : list Reporter.citation) : string :=
  String.concat "
"
    ([ "# Market note — 3‑2‑1 crack overview (" +:+ heading +:+ ")" +:+ "
";
       "Today's 3‑2‑1 crack: **" +:+ fmt1 latest +:+
         " USD/bbl** (percentile: **" +:+ fmt1 pct +:+ "%** vs history)." +:+ "
";
       "3‑year average (approx): **" +:+ fmt1 m +:+
         " USD/bbl**. This note is automatically generated and should be edited before distribution." +:+ "
" ] ++
     match citation_refs with
     | [] => []
     | _ => ("
References:
") :: (Reporter.cite <$> citation_refs)
     end).

(** What [write_market_note] writes for a table, or the error it raises. *)
Definition note_of (fmt1 : float -> string)
    (date_text : Reporter.scalar -> result string) (mean : list float -> float)
    (citation_refs : list Reporter.citation) (f : frame) : result string :=
  if bool_decide (Calculator.wanted ⊆ list_to_set (columns f)) then
    rbob ← Loader.get f "rbob" ≫= Calculator.col_floats;
    ulsd ← Loader.get f "ulsd" ≫= Calculator.col_floats;
    crude ← Loader.get f "crude" ≫= Calculator.col_floats;
    let cracks := Calculator.crack_series crude rbob ulsd in
    let df := setitem f "crack" (FloatCol cracks) in
    latest ← Reporter.latest_crack df;
    latest_date ← Reporter.latest_at df "date";
    heading ← date_text latest_date;
    Ok (note_text fmt1 heading latest
          (if is_nan latest then nan else Ranker.compute_percentile cracks latest)
          (mean cracks) citation_refs)
  else Raise ValueError_must_contain.

End FurtherVocabulary.

(** * Properties *)

(** ** Filling gaps *)

Module SeriesFacts.

Import F64 Series.

Lemma is_nan_true x : is_nan x = true -> x = nan.
Proof. by destruct x. Qed.

Lemma first_valid_from_nans n l a r :
  Forall (fun y => is_nan y = true) l -> valid a ->
  first_valid_from n (l ++ a :: r) = Some (n + length l, a).
Proof.
  intros Hl Ha. revert n.
  induction Hl as [|y l Hy _ IH]; intros n; simpl.
  - rewrite Ha. f_equal. f_equal. lia.
  - rewrite Hy, IH. f_equal. f_equal. lia.
Qed.

Lemma first_valid_from_none n l :
  Forall (fun y => is_nan y = true) l -> first_valid_from n l = None.
Proof.
  intros Hl. revert n. induction Hl as [|y l Hy _ IH]; intros n; simpl; [done|].
  by rewrite Hy.
Qed.

Lemma first_valid_from_le n l j v i a :
  first_valid_from n l = Some (j, v) -> l !! i = Some a -> valid a -> j <= n + i.
Proof.
  revert n i. induction l as [|y l IH]; intros n i; simpl; [done|].
  destruct (is_nan y) eqn:Hy.
  - intros Hf Hi Ha. destruct i as [|i]; simpl in Hi.
    + congruence.
    + specialize (IH _ _ Hf Hi Ha). lia.
  - intros [= <- <-] _ _. lia.
Qed.

Lemma first_valid_index_le ys i a :
  ys !! i = Some a -> valid a -> first_valid_index ys <= i.
Proof.
  intros Hi Ha. unfold first_valid_index.
  destruct (first_valid_from 0 ys) as [[j v]|] eqn:Hf.
  - apply (first_valid_from_le _ _ _ _ _ _ Hf Hi Ha).
  - exfalso. clear -Hf Hi Ha. revert Hf. generalize 0. revert i Hi.
    induction ys as [|y ys IH]; intros i Hi n; [done|]. simpl.
    destruct (is_nan y) eqn:Hy; [|done].
    destruct i as [|i]; simpl in Hi; [congruence|]. by apply IH with i.
Qed.

Lemma first_valid_index_nans l a r :
  Forall (fun y => is_nan y = true) l -> valid a ->
  first_valid_index (l ++ a :: r) = length l.
Proof.
  intros Hl Ha. unfold first_valid_index.
  by rewrite (first_valid_from_nans 0 l a r Hl Ha).
Qed.

Lemma last_valid_from_nans n pre a l :
  Forall (fun y => is_nan y = true) l -> valid a ->
  last_valid_from n (pre ++ a :: l) = Some (n + length pre, a).
Proof.
  intros Hl Ha. revert n. induction pre as [|y pre IH]; intros n; simpl.
  - assert (last_valid_from (S n) l = None) as ->.
    { clear -Hl. generalize (S n). induction Hl as [|y l Hy _ IH]; intros m; [done|].
      simpl. by rewrite IH, Hy. }
    rewrite Ha. f_equal. f_equal. lia.
  - rewrite IH. f_equal. f_equal. lia.
Qed.

Lemma last_valid_from_none n l :
  Forall (fun y => is_nan y = true) l -> last_valid_from n l = None.
Proof.
  intros Hl. revert n. induction Hl as [|y l Hy _ IH]; intros n; [done|].
  simpl. by rewrite IH, Hy.
Qed.

Lemma beyond_limit_false limit ys i p a :
  ys !! p = Some a -> valid a -> i - limit <= p <= i ->
  beyond_limit limit ys i = false.
Proof.
  intros Hp Ha Hr. unfold beyond_limit.
  apply not_true_is_false. intros Hall.
  apply Is_true_true, forallb_True in Hall.
  rewrite Forall_lookup in Hall.
  specialize (Hall (p - (i - limit)) a).
  rewrite Ha in Hall. apply Hall.
  rewrite lookup_take_lt by lia. rewrite lookup_drop.
  by replace (i - limit + (p - (i - limit))) with p by lia.
Qed.

Lemma beyond_limit_true limit ys i :
  (forall p y, i - limit <= p <= i -> ys !! p = Some y -> is_nan y = true) ->
  beyond_limit limit ys i = true.
Proof.
  intros H. unfold beyond_limit.
  apply Is_true_true, forallb_True. rewrite Forall_lookup.
  intros q y Hq.
  apply lookup_take_Some in Hq as [Hq Hlt]. rewrite lookup_drop in Hq.
  apply Is_true_true. apply (H (i - limit + q)); [lia | done].
Qed.

(** What [interpolate] leaves at each position. *)
Lemma interpolate_lookup limit ys i y :
  ys !! i = Some y ->
  interpolate limit ys !! i =
    Some (if is_nan y then
            if preserve_nan limit ys i then nan else np_interp ys i
          else y).
Proof.
  intros Hi. unfold interpolate.
  destruct (existsb _ ys) eqn:Hex; simpl.
  - destruct (forallb _ ys) eqn:Hall.
    + apply Is_true_true, forallb_True in Hall. rewrite Forall_lookup in Hall.
      specialize (Hall _ _ Hi). simpl in Hall.
      destruct (is_nan y); [done | by rewrite Hi].
    + by rewrite list_lookup_imap, Hi.
  - assert (Forall (fun y => is_nan y = true) ys) as Hn.
    { apply Forall_forall. intros z Hz.
      destruct (is_nan z) eqn:Hzn; [done|].
      assert (existsb (fun y => negb (is_nan y)) ys = true); [|congruence].
      apply existsb_exists. exists z. split; [by apply list_elem_of_In|by rewrite Hzn]. }
    rewrite Hi. f_equal.
    pose proof (proj1 (Forall_lookup _ _) Hn _ _ Hi) as Hy. simpl in Hy. rewrite Hy.
    unfold preserve_nan, first_valid_index.
    rewrite (first_valid_from_none 0 ys Hn).
    apply lookup_lt_Some in Hi.
    assert ((i <? length ys) = true) as -> by (apply Nat.ltb_lt; lia).
    simpl. by apply is_nan_true.
Qed.

Lemma interpolate_length limit ys : length (interpolate limit ys) = length ys.
Proof.
  unfold interpolate. repeat case_match; try done. apply length_imap.
Qed.

Lemma ffill_from_length c l : length (ffill_from c l) = length l.
Proof. revert c. induction l as [|y l IH]; intros c; simpl; [done|]. by rewrite IH. Qed.

Lemma bfill_length l : length (bfill l) = length l.
Proof. induction l as [|y l IH]; simpl; [done|]. by rewrite IH. Qed.

Lemma fill_gaps_length ys : length (fill_gaps ys) = length ys.
Proof.
  unfold fill_gaps, ffill.
  by rewrite bfill_length, ffill_from_length, interpolate_length.
Qed.

(** A valid entry survives [ffill] and [bfill]. *)
Lemma ffill_from_lookup_valid c l i v :
  l !! i = Some v -> valid v -> ffill_from c l !! i = Some v.
Proof.
  revert c i. induction l as [|y l IH]; intros c i Hi Hv; [done|].
  destruct i as [|i]; simpl in *.
  - injection Hi as ->. by rewrite Hv.
  - by apply IH.
Qed.

Lemma bfill_lookup_valid l i v :
  l !! i = Some v -> valid v -> bfill l !! i = Some v.
Proof.
  revert i. induction l as [|y l IH]; intros i Hi Hv; [done|].
  destruct i as [|i]; simpl in *.
  - injection Hi as ->. by rewrite Hv.
  - by apply IH.
Qed.

(** [ffill] carries the last valid value over the NaNs that follow it. *)
Lemma ffill_from_lookup_carry c l j i v :
  l !! j = Some v -> valid v -> j <= i -> i < length l ->
  (forall p y, j < p <= i -> l !! p = Some y -> is_nan y = true) ->
  ffill_from c l !! i = Some v.
Proof.
  revert c j i. induction l as [|y l IH]; intros c j i Hj Hv Hji Hi Hgap; [done|].
  destruct j as [|j]; simpl in Hj.
  - injection Hj as ->. simpl. rewrite Hv.
    clear IH c. revert i Hji Hi Hgap. induction l as [|z l IH]; intros i _ Hi Hgap.
    + simpl in Hi. by replace i with 0 by lia.
    + destruct i as [|i]; [done|]. simpl.
      destruct i as [|i].
      * simpl. by rewrite (Hgap 1 z) by (done || lia).
      * rewrite (Hgap 1 z) by (done || lia).
        simpl. specialize (IH (S i)). simpl in IH. apply IH; [lia|simpl in Hi; lia|].
        intros p y' Hp Hl. destruct p as [|p]; [lia|].
        apply (Hgap (S (S p)) y'); [lia|done].
  - destruct i as [|i]; [lia|]. simpl.
    apply (IH _ j i); [done|done|lia|simpl in Hi; lia|].
    intros p y' Hp Hl. apply (Hgap (S p) y'); [lia|done].
Qed.

(** The NaNs before the first valid value are still there after [ffill]. *)
Lemma ffill_lookup_leading l i :
  i < length l ->
  (forall p y, p <= i -> l !! p = Some y -> is_nan y = true) ->
  ffill l !! i = Some nan.
Proof.
  unfold ffill. revert i. induction l as [|y l IH]; intros i Hi Hn; [simpl in Hi; lia|].
  simpl. rewrite (Hn 0 y) by (done || lia).
  destruct i as [|i]; [done|]. simpl.
  apply IH; [simpl in Hi; lia|].
  intros p y' Hp Hl. apply (Hn (S p) y'); [lia|done].
Qed.

(** [bfill] carries the next valid value back over the NaNs before it. *)
Lemma bfill_lookup_carry l i j v :
  l !! j = Some v -> valid v -> i <= j ->
  (forall p y, i <= p < j -> l !! p = Some y -> is_nan y = true) ->
  bfill l !! i = Some v.
Proof.
  revert i j. induction l as [|y l IH]; intros i j Hj Hv Hij Hgap; [done|].
  destruct j as [|j].
  - replace i with 0 by lia. simpl in *. injection Hj as ->. by rewrite Hv.
  - simpl in Hj. destruct i as [|i].
    + simpl. rewrite (Hgap 0 y) by (done || lia).
      assert (bfill l !! 0 = Some v) as H0.
      { apply (IH 0 j); [done|done|lia|].
        intros p y' Hp Hl. apply (Hgap (S p) y'); [lia|done]. }
      destruct (bfill l); [done|]. simpl in H0. by injection H0 as ->.
    + simpl. apply (IH i j); [done|done|lia|].
      intros p y' Hp Hl. apply (Hgap (S p) y'); [lia|done].
Qed.

(** After [ffill] everything from a valid entry on is valid, and after
    [bfill] everything before one is. *)
Lemma ffill_from_valid c l : valid c -> Forall (fun y => valid y) (ffill_from c l).
Proof.
  revert c. induction l as [|y l IH]; intros c Hc; simpl; [done|].
  destruct (is_nan y) eqn:Hy; constructor; auto.
Qed.

Lemma ffill_from_app c l1 v l2 :
  valid v -> ffill_from c (l1 ++ v :: l2) = ffill_from c l1 ++ v :: ffill_from v l2.
Proof.
  intros Hv. revert c. induction l1 as [|y l1 IH]; intros c; simpl.
  - by rewrite Hv.
  - by rewrite IH.
Qed.

Lemma bfill_valid_id l : Forall (fun y => valid y) l -> bfill l = l.
Proof. induction 1 as [|y l Hy _ IH]; simpl; [done|]. by rewrite Hy, IH. Qed.

Lemma bfill_app_valid l1 v l2 :
  Forall (fun y => valid y) (v :: l2) -> Forall (fun y => valid y) (bfill (l1 ++ v :: l2)).
Proof.
  intros Hv. induction l1 as [|y l1 IH].
  - simpl app. by rewrite bfill_valid_id.
  - simpl. constructor; [|done].
    destruct (is_nan y) eqn:Hy; [|done].
    destruct (bfill (l1 ++ v :: l2)) as [|z r] eqn:Hb.
    + apply (f_equal length) in Hb. rewrite bfill_length, length_app in Hb.
      simpl in Hb. lia.
    + by inversion IH.
Qed.

(** With one valid entry in the column, nothing is missing after the fill. *)
Lemma fill_gaps_valid ys j v :
  ys !! j = Some v -> valid v -> Forall (fun y => valid y) (fill_gaps ys).
Proof.
  intros Hj Hv. unfold fill_gaps, ffill.
  pose proof (interpolate_lookup 7 ys j v Hj) as Hz. rewrite Hv in Hz.
  rewrite <- (take_drop_middle _ _ _ Hz).
  rewrite ffill_from_app by done.
  apply bfill_app_valid. constructor; [done|]. by apply ffill_from_valid.
Qed.

End SeriesFacts.

(** ** Gaps between, before and after valid values *)

Module GapFacts.

Import F64 Series SeriesFacts.

Lemma Forall_nan_replicate n : Forall (fun y => is_nan y = true) (replicate n nan).
Proof. by apply Forall_replicate. Qed.

Section InteriorGap.

(** A run of [n] NaNs between the valid values [a] and [b]. *)
Variables (pre post : list float) (a b : float) (n : nat).
Hypothesis Ha : valid a.
Hypothesis Hb : valid b.

Let j := length pre.
Let ys := pre ++ a :: replicate n nan ++ b :: post.

Lemma gap_lookup_left : ys !! j = Some a.
Proof. subst ys j. by rewrite list_lookup_middle. Qed.

Lemma gap_lookup k : k < n -> ys !! (j + 1 + k) = Some nan.
Proof.
  intros Hk. subst ys j.
  rewrite lookup_app_r by lia.
  replace (length pre + 1 + k - length pre) with (S k) by lia. simpl.
  rewrite lookup_app_l by (rewrite length_replicate; lia).
  by apply lookup_replicate_2.
Qed.

Lemma gap_split k :
  k < n ->
  ys = (pre ++ a :: replicate k nan) ++ (replicate (n - k) nan ++ b :: post).
Proof.
  intros Hk. subst ys.
  replace n with (k + (n - k)) at 1 by lia.
  rewrite replicate_add. by rewrite <- !app_assoc.
Qed.

Lemma gap_np_interp k : k < n -> np_interp ys (j + 1 + k) = interior pre a b n k.
Proof.
  intros Hk. unfold np_interp, prev_valid, next_valid.
  assert (length (pre ++ a :: replicate k nan) = j + 1 + k) as Hlen.
  { rewrite length_app. simpl. rewrite length_replicate. subst j. lia. }
  rewrite (gap_split k Hk).
  rewrite take_app_length' by done. rewrite drop_app_length' by done.
  rewrite (last_valid_from_nans 0 pre a _ (Forall_nan_replicate k) Ha).
  rewrite (first_valid_from_nans _ _ b post (Forall_nan_replicate (n - k)) Hb).
  rewrite length_replicate. unfold interior. subst j. simpl. f_equal; lia.
Qed.

(** [interpolate] fills the first [limit] positions of the run, whatever
    its length, and leaves the others missing. *)
Lemma interpolate_gap limit k :
  k < n ->
  interpolate limit ys !! (j + 1 + k) =
    Some (if k <? limit then interior pre a b n k else nan).
Proof.
  intros Hk. rewrite (interpolate_lookup _ _ _ _ (gap_lookup k Hk)). simpl.
  f_equal. unfold preserve_nan.
  pose proof (first_valid_index_le _ _ _ gap_lookup_left Ha) as Hfirst.
  assert ((j + 1 + k <? first_valid_index ys) = false) as ->
    by (apply Nat.ltb_ge; lia).
  simpl. destruct (k <? limit) eqn:Hlim.
  - apply Nat.ltb_lt in Hlim.
    rewrite (beyond_limit_false limit ys _ j a gap_lookup_left Ha) by lia.
    by apply gap_np_interp.
  - apply Nat.ltb_ge in Hlim. rewrite beyond_limit_true; [done|].
    intros p y Hp Hy.
    replace p with (j + 1 + (p - (j + 1))) in Hy by lia.
    rewrite gap_lookup in Hy by lia. by injection Hy as <-.
Qed.

(** After the forward fill, the positions beyond the limit hold the last
    interpolated value. *)
Lemma fill_gaps_gap k :
  k < n -> valid (interior pre a b n (k `min` 6)) ->
  fill_gaps ys !! (j + 1 + k) = Some (interior pre a b n (k `min` 6)).
Proof.
  intros Hk Hv. unfold fill_gaps, ffill. apply bfill_lookup_valid; [|done].
  destruct (decide (k < 7)) as [Hlt|Hge].
  - replace (k `min` 6) with k in * by lia.
    apply ffill_from_lookup_valid; [|done].
    rewrite interpolate_gap by done.
    by assert ((k <? 7) = true) as -> by (apply Nat.ltb_lt; lia).
  - replace (k `min` 6) with 6 in * by lia.
    apply (ffill_from_lookup_carry _ _ (j + 1 + 6)); [|done|lia|..].
    + by rewrite interpolate_gap by lia.
    + rewrite interpolate_length. apply lookup_lt_Some with nan. by apply gap_lookup.
    + intros p y Hp Hy.
      replace p with (j + 1 + (p - (j + 1))) in Hy by lia.
      rewrite interpolate_gap in Hy by lia.
      assert ((p - (j + 1) <? 7) = false) as Hf by (apply Nat.ltb_ge; lia).
      rewrite Hf in Hy. by injection Hy as <-.
Qed.

End InteriorGap.

Section LeadingGap.

(** A run of [m] NaNs before the first valid value [a]. *)
Variables (rest : list float) (a : float) (m : nat).
Hypothesis Ha : valid a.

Let ys := replicate m nan ++ a :: rest.

Lemma leading_lookup p : p < m -> ys !! p = Some nan.
Proof.
  intros Hp. subst ys. rewrite lookup_app_l by (rewrite length_replicate; lia).
  by apply lookup_replicate_2.
Qed.

Lemma leading_lookup_first : ys !! m = Some a.
Proof.
  subst ys. apply list_lookup_middle. by rewrite length_replicate.
Qed.

Lemma interpolate_leading limit p :
  p < m -> interpolate limit ys !! p = Some nan.
Proof.
  intros Hp. rewrite (interpolate_lookup _ _ _ _ (leading_lookup p Hp)). simpl.
  unfold preserve_nan. subst ys.
  rewrite (first_valid_index_nans _ a rest (Forall_nan_replicate m) Ha).
  rewrite length_replicate.
  by assert ((p <? m) = true) as -> by (apply Nat.ltb_lt; lia).
Qed.

Lemma fill_gaps_leading i : i < m -> fill_gaps ys !! i = Some a.
Proof.
  intros Hi. unfold fill_gaps.
  apply (bfill_lookup_carry _ i m a); [|done|lia|].
  - apply ffill_from_lookup_valid; [|done].
    rewrite (interpolate_lookup _ _ _ _ leading_lookup_first). by rewrite Ha.
  - intros p y Hp Hy.
    rewrite ffill_lookup_leading in Hy.
    + by injection Hy as <-.
    + rewrite interpolate_length. apply lookup_lt_Some with nan.
      apply leading_lookup. lia.
    + intros q z Hq Hz. rewrite interpolate_leading in Hz by lia.
      by injection Hz as <-.
Qed.

End LeadingGap.

Section TrailingGap.

(** A run of [m] NaNs after the last valid value [a]. *)
Variables (pre : list float) (a : float) (m : nat).
Hypothesis Ha : valid a.

Let j := length pre.
Let ys := pre ++ a :: replicate m nan.

Lemma trailing_lookup_last : ys !! j = Some a.
Proof. subst ys j. by rewrite list_lookup_middle. Qed.

Lemma trailing_lookup k : k < m -> ys !! (j + 1 + k) = Some nan.
Proof.
  intros Hk. subst ys j.
  rewrite lookup_app_r by lia.
  replace (length pre + 1 + k - length pre) with (S k) by lia. simpl.
  by apply lookup_replicate_2.
Qed.

Lemma trailing_np_interp k : k < m -> np_interp ys (j + 1 + k) = a.
Proof.
  intros Hk. unfold np_interp, prev_valid, next_valid.
  assert (ys = (pre ++ a :: replicate k nan) ++ replicate (m - k) nan) as ->.
  { subst ys. replace m with (k + (m - k)) at 1 by lia.
    rewrite replicate_add. by rewrite <- !app_assoc. }
  assert (length (pre ++ a :: replicate k nan) = j + 1 + k) as Hlen.
  { rewrite length_app. simpl. rewrite length_replicate. subst j. lia. }
  rewrite take_app_length' by done. rewrite drop_app_length' by done.
  rewrite (last_valid_from_nans 0 pre a _ (Forall_nan_replicate k) Ha).
  by rewrite (first_valid_from_none _ _ (Forall_nan_replicate (m - k))).
Qed.

(** The first [limit] positions take the last value from [np.interp]... *)
Lemma interpolate_trailing limit k :
  k < m ->
  interpolate limit ys !! (j + 1 + k) = Some (if k <? limit then a else nan).
Proof.
  intros Hk. rewrite (interpolate_lookup _ _ _ _ (trailing_lookup k Hk)). simpl.
  f_equal. unfold preserve_nan.
  pose proof (first_valid_index_le _ _ _ trailing_lookup_last Ha) as Hfirst.
  assert ((j + 1 + k <? first_valid_index ys) = false) as ->
    by (apply Nat.ltb_ge; lia).
  simpl. destruct (k <? limit) eqn:Hlim.
  - apply Nat.ltb_lt in Hlim.
    rewrite (beyond_limit_false limit ys _ j a trailing_lookup_last Ha) by lia.
    by apply trailing_np_interp.
  - apply Nat.ltb_ge in Hlim. rewrite beyond_limit_true; [done|].
    intros p y Hp Hy.
    destruct (decide (p < j + 1 + m)) as [Hin|Hout].
    + replace p with (j + 1 + (p - (j + 1))) in Hy by lia.
      rewrite trailing_lookup in Hy by lia. by injection Hy as <-.
    + apply lookup_lt_Some in Hy. subst ys j.
      rewrite length_app in Hy. simpl in Hy. rewrite length_replicate in Hy. lia.
Qed.

(** ... and the others from the forward fill. *)
Lemma fill_gaps_trailing k : k < m -> fill_gaps ys !! (j + 1 + k) = Some a.
Proof.
  intros Hk. unfold fill_gaps, ffill. apply bfill_lookup_valid; [|done].
  destruct (decide (k < 7)) as [Hlt|Hge].
  - apply ffill_from_lookup_valid; [|done].
    rewrite interpolate_trailing by done.
    by assert ((k <? 7) = true) as -> by (apply Nat.ltb_lt; lia).
  - apply (ffill_from_lookup_carry _ _ (j + 1 + 6)); [|done|lia|..].
    + by rewrite interpolate_trailing by lia.
    + rewrite interpolate_length. apply lookup_lt_Some with nan.
      by apply trailing_lookup.
    + intros p y Hp Hy.
      replace p with (j + 1 + (p - (j + 1))) in Hy by lia.
      rewrite interpolate_trailing in Hy by lia.
      assert ((p - (j + 1) <? 7) = false) as Hf by (apply Nat.ltb_ge; lia).
      rewrite Hf in Hy. by injection Hy as <-.
Qed.

End TrailingGap.

End GapFacts.

(** ** Sorting *)

Section ArgsortFacts.

Context {K : Type}.
Variable ltb : K -> K -> bool.
Variable isna : K -> bool.

(** The strict comparison never holds both ways. *)
Hypothesis ltb_asym : forall a b, ltb a b = true -> ltb b a = false.

Lemma insert_Permutation x l : insert ltb x l ≡ₚ x :: l.
Proof.
  induction l as [|y l IH]; simpl; [done|].
  destruct (ltb y.2 x.2); [|done].
  rewrite IH. apply Permutation_swap.
Qed.

Lemma isort_Permutation l : isort ltb l ≡ₚ l.
Proof.
  induction l as [|x l IH]; simpl; [done|].
  by rewrite insert_Permutation, IH.
Qed.

Lemma insert_HdRel a x l :
  ascending ltb a x -> HdRel (ascending ltb) a l -> HdRel (ascending ltb) a (insert ltb x l).
Proof.
  intros Hax Hal. destruct l as [|y l]; simpl.
  - by constructor.
  - destruct (ltb y.2 x.2); constructor; [by inversion Hal|done].
Qed.

Lemma insert_Sorted x l :
  Sorted (ascending ltb) l -> Sorted (ascending ltb) (insert ltb x l).
Proof.
  induction 1 as [|y l Hl IH Hy]; simpl.
  - by repeat constructor.
  - destruct (ltb y.2 x.2) eqn:Hyx.
    + constructor; [done|]. apply insert_HdRel; [|done].
      by apply ltb_asym.
    + constructor; [by constructor|]. by constructor.
Qed.

Lemma isort_Sorted l : Sorted (ascending ltb) (isort ltb l).
Proof. induction l; simpl; [constructor|]. by apply insert_Sorted. Qed.

(** Stability.  [ord] relates the entries in their input order and [tie]
    relates keys of which none is strictly smaller; tied entries come out in
    input order. *)
Section Stable.

Variable ord : nat * K -> nat * K -> Prop.
Variable tie : K -> K -> Prop.
Hypothesis tie_not_lt : forall a b, tie a b -> ltb a b = false.



End Stable.

(** The enumeration pairs every key with its position. *)
Lemma zip_seq_lookup n (items : list K) :
  Forall (fun p => n <= p.1 /\ items !! (p.1 - n) = Some p.2) (zip (seq n (length items)) items).
Proof.
  revert n. induction items as [|k items IH]; intros n; simpl; [constructor|].
  constructor.
  - simpl. split; [lia|]. by replace (n - n) with 0 by lia.
  - eapply Forall_impl; [apply (IH (S n))|].
    intros [i k'] [Hle Hl]; simpl in *. split; [lia|].
    by replace (i - n) with (S (i - S n)) by lia.
Qed.

Lemma enumerate_at_position (items : list K) : Forall (at_position items) (enumerate items).
Proof.
  eapply Forall_impl; [apply (zip_seq_lookup 0)|].
  intros [i k] [_ Hl]; simpl in *. unfold at_position; simpl.
  by replace (i - 0) with i in Hl by lia.
Qed.


Lemma enumerate_fst (items : list K) : (enumerate items).*1 = seq 0 (length items).
Proof. apply fst_zip. by rewrite length_seq. Qed.

Lemma filter_Forall {A} (P : A -> Prop) f (l : list A) :
  Forall P l -> Forall P (List.filter f l).
Proof.
  induction 1 as [|x l Hx _ IH]; simpl; [done|]. destruct (f x); auto.
Qed.

Lemma filter_Forall_true {A} f (l : list A) :
  Forall (fun x => f x = true) (List.filter f l).
Proof.
  induction l as [|x l IH]; simpl; [done|]. destruct (f x) eqn:Hx; auto.
Qed.


Lemma filter_partition {A} f (l : list A) :
  List.filter (fun x => negb (f x)) l ++ List.filter f l ≡ₚ l.
Proof.
  induction l as [|x l IH]; simpl; [done|].
  destruct (f x); simpl.
  - by rewrite <- Permutation_middle, IH.
  - by rewrite IH.
Qed.


Lemma nargsort_pairs asc (items : list K) :
  nargsort ltb isna asc items = (sorted_pairs ltb isna asc items ++ nan_pairs isna items).*1.
Proof. unfold nargsort. by rewrite fmap_app. Qed.

Lemma sorted_pairs_Permutation asc (items : list K) :
  sorted_pairs ltb isna asc items ≡ₚ non_nans isna items.
Proof.
  unfold sorted_pairs. destruct asc.
  - apply isort_Permutation.
  - by rewrite reverse_Permutation, isort_Permutation, reverse_Permutation.
Qed.

(** The indexer is a permutation of the positions. *)
Lemma nargsort_Permutation asc (items : list K) :
  nargsort ltb isna asc items ≡ₚ seq 0 (length items).
Proof.
  rewrite nargsort_pairs, sorted_pairs_Permutation.
  unfold non_nans, nan_pairs. rewrite filter_partition. by rewrite enumerate_fst.
Qed.

Lemma pairs_at_position asc (items : list K) :
  Forall (at_position items) (sorted_pairs ltb isna asc items ++ nan_pairs isna items).
Proof.
  apply Forall_app. split.
  - rewrite sorted_pairs_Permutation. apply filter_Forall, enumerate_at_position.
  - apply filter_Forall, enumerate_at_position.
Qed.

End ArgsortFacts.

(** ** Frames *)

Module FrameFacts.

Import Frame.

Lemma getitem_setitem df l c l' :
  getitem (setitem df l c) l' = if decide (l = l') then Some c else getitem df l'.
Proof.
  induction df as [|[k c'] df IH]; simpl.
  - by repeat case_decide.
  - repeat (case_decide; simpl; subst); congruence.
Qed.

Lemma getitem_setitem_eq df l c : getitem (setitem df l c) l = Some c.
Proof. rewrite getitem_setitem. by case_decide. Qed.

Lemma getitem_setitem_ne df l c l' :
  l ≠ l' -> getitem (setitem df l c) l' = getitem df l'.
Proof. intros. rewrite getitem_setitem. by case_decide. Qed.

Lemma getitem_fmap f df l :
  getitem (prod_map id f <$> df) l = f <$> getitem df l.
Proof.
  induction df as [|[k c] df IH]; simpl; [done|]. by case_decide.
Qed.

Lemma getitem_Some_columns df l c : getitem df l = Some c -> l ∈ columns df.
Proof.
  unfold columns. induction df as [|[k c'] df IH]; simpl; [done|].
  case_decide; subst; [left|right]; auto.
Qed.

Lemma columns_getitem df l : l ∈ columns df -> is_Some (getitem df l).
Proof.
  unfold columns. induction df as [|[k c'] df IH]; simpl.
  - by intros ?%elem_of_nil.
  - intros [->|Hl]%elem_of_cons; case_decide; try done; by auto.
Qed.

Lemma columns_setitem df l c :
  is_Some (getitem df l) -> columns (setitem df l c) = columns df.
Proof.
  unfold columns. induction df as [|[k c'] df IH]; simpl.
  - by intros [? ?].
  - case_decide; simpl; [done|]. intros Hs. f_equal. by apply IH.
Qed.

Lemma columns_fmap f df : columns (prod_map id f <$> df) = columns df.
Proof. unfold columns. rewrite <- list_fmap_compose. by apply list_fmap_ext; intros ? []. Qed.

Lemma has_rows_getitem n df l c :
  has_rows n df -> getitem df l = Some c -> col_length c = n.
Proof.
  unfold has_rows. induction 1 as [|[k c'] df Hk _ IH]; simpl; [done|].
  case_decide; [by intros [= <-]|done].
Qed.

Lemma has_rows_setitem n df l c :
  has_rows n df -> col_length c = n -> has_rows n (setitem df l c).
Proof.
  unfold has_rows. induction 1 as [|[k c'] df Hk Hdf IH]; simpl; intros Hc.
  - by repeat constructor.
  - case_decide; constructor; auto.
Qed.

Lemma nrows_has_rows n df l c :
  has_rows n df -> getitem df l = Some c -> nrows df = n.
Proof.
  destruct df as [|[k c'] df]; [done|]. intros H _. by inversion H.
Qed.

(** Rows picked by an indexer. *)
Lemma take_rows_pairs {A} (l : list A) (ps : list (nat * A)) :
  Forall (fun p => l !! p.1 = Some p.2) ps -> take_rows ps.*1 l = ps.*2.
Proof.
  unfold take_rows. induction 1 as [|[i x] ps Hp _ IH]; [done|].
  rewrite !fmap_cons. cbn [fst snd] in *. cbn [omap list_omap].
  rewrite Hp. by rewrite <- IH.
Qed.


Lemma take_rows_length {A} (l : list A) idx :
  Forall (fun i => i < length l) idx -> length (take_rows idx l) = length idx.
Proof.
  unfold take_rows. induction 1 as [|i idx Hi _ IH]; [done|].
  destruct (lookup_lt_is_Some_2 l i Hi) as [x Hx].
  cbn [omap list_omap]. rewrite Hx. simpl. by rewrite IH.
Qed.

Lemma Permutation_seq_lt idx n : idx ≡ₚ seq 0 n -> Forall (fun i => i < n) idx.
Proof.
  intros ->. apply Forall_forall. intros i Hi%elem_of_seq. lia.
Qed.


Lemma col_take_length idx c :
  idx ≡ₚ seq 0 (col_length c) -> col_length (col_take idx c) = col_length c.
Proof.
  intros Hperm. pose proof (Permutation_length Hperm) as Hlen.
  rewrite length_seq in Hlen.
  destruct c; simpl in *; (rewrite take_rows_length; [done|by apply Permutation_seq_lt]).
Qed.

End FrameFacts.

(** ** The loader step by step *)

Module LoaderFacts.

Import F64 Series Frame Loader FrameFacts SeriesFacts.

Section WithParser.

Variable str_to_float : string -> float.

Lemma cast_numeric_ok l df c :
  getitem df l = Some c ->
  cast_numeric str_to_float l df = Ok (setitem df l (FloatCol (to_numeric str_to_float c))).
Proof. intros H. unfold cast_numeric, get. by rewrite H. Qed.

Lemma fill_column_ok l df v :
  getitem df l = Some (FloatCol v) ->
  fill_column l df = Ok (setitem df l (FloatCol (fill_gaps v))).
Proof. intros H. unfold fill_column, get_floats, get. by rewrite H. Qed.

Lemma required_present df :
  required ⊆ list_to_set (columns df) <->
  Forall (fun l => is_Some (getitem df l)) ["date"; "crude"; "rbob"; "ulsd"]%string.
Proof.
  unfold required. rewrite !Forall_cons, Forall_nil. split.
  - intros H. split_and!; try done; apply columns_getitem;
      apply (elem_of_list_to_set (C := gset string)), H;
      rewrite !elem_of_union, !elem_of_singleton; tauto.
  - intros (Hd & Hc & Hr & Hu & _) l Hl. apply elem_of_list_to_set.
    destruct Hd as [? ?%getitem_Some_columns], Hc as [? ?%getitem_Some_columns],
      Hr as [? ?%getitem_Some_columns], Hu as [? ?%getitem_Some_columns].
    rewrite !elem_of_union, !elem_of_singleton in Hl.
    by destruct Hl as [[[->| ->]| ->]| ->].
Qed.

Ltac getitem_tac :=
  repeat first
    [ rewrite getitem_setitem_eq
    | rewrite getitem_setitem_ne by done
    | rewrite getitem_fmap ].

Lemma to_numeric_length c : length (to_numeric str_to_float c) = col_length c.
Proof. destruct c; simpl; by rewrite ?length_fmap. Qed.

Lemma col_argsort_Permutation asc c :
  col_argsort asc c ≡ₚ seq 0 (col_length c).
Proof. destruct c; apply nargsort_Permutation. Qed.

Lemma sorted_has_rows n df d asc :
  has_rows n df -> getitem df "date" = Some d ->
  has_rows n (prod_map id (col_take (col_argsort asc d)) <$> df).
Proof.
  intros Hrows Hd. pose proof (has_rows_getitem _ _ _ _ Hrows Hd) as Hlen.
  unfold has_rows in *. rewrite Forall_fmap.
  eapply Forall_impl; [exact Hrows|]. intros [k c] Hc; simpl in *.
  rewrite col_take_length; [done|].
  rewrite Hc, <- Hlen. apply col_argsort_Permutation.
Qed.

(** Without a reference date: every column in date order, the three price
    columns cleaned. *)
Lemma load_clean path df d c r u :
  getitem df "date" = Some d -> getitem df "crude" = Some c ->
  getitem df "rbob" = Some r -> getitem df "ulsd" = Some u ->
  let indexer := col_argsort true d in
  exists out,
    load_price_history str_to_float path df None = Ok out /\
    columns out = columns df /\
    (forall l, getitem out l =
      if decide (l ∈ price_labels) then clean str_to_float indexer <$> getitem df l
      else col_take indexer <$> getitem df l) /\
    (forall n, has_rows n df -> has_rows n out).
Proof.
  intros Hd Hc Hr Hu indexer. unfold load_price_history.
  rewrite bool_decide_eq_true_2
    by (apply required_present; repeat constructor; eauto).
  unfold sort_values. rewrite Hd. simpl.
  fold indexer. set (S0 := prod_map id (col_take indexer) <$> df).
  erewrite cast_numeric_ok by (subst S0; getitem_tac; by rewrite Hc). simpl.
  erewrite cast_numeric_ok by (subst S0; getitem_tac; by rewrite Hr). simpl.
  erewrite cast_numeric_ok by (subst S0; getitem_tac; by rewrite Hu). simpl.
  erewrite fill_column_ok by (getitem_tac; done). simpl.
  erewrite fill_column_ok by (getitem_tac; done). simpl.
  erewrite fill_column_ok by (getitem_tac; done). simpl.
  eexists. split; [done|]. split_and!.
  - rewrite !columns_setitem; subst S0; [apply columns_fmap|..];
      getitem_tac; rewrite ?Hc, ?Hr, ?Hu; by eexists.
  - intros l. unfold price_labels, clean.
    destruct (decide (l = "crude"%string)) as [->|?];
      [getitem_tac; by rewrite Hc|].
    destruct (decide (l = "rbob"%string)) as [->|?];
      [getitem_tac; by rewrite Hr|].
    destruct (decide (l = "ulsd"%string)) as [->|?];
      [getitem_tac; by rewrite Hu|].
    rewrite decide_False
      by (rewrite !elem_of_cons, elem_of_nil; intuition congruence).
    subst S0. by getitem_tac.
  - intros n Hrows.
    pose proof (sorted_has_rows n df d true Hrows Hd) as HS. fold indexer S0 in HS.
    assert (forall x col, getitem df x = Some col ->
              col_length (col_take indexer col) = n) as Hlen.
    { intros x col Hx. apply (has_rows_getitem n S0 x); [done|].
      subst S0. by rewrite getitem_fmap, Hx. }
    repeat apply has_rows_setitem; try done; simpl;
      rewrite ?fill_gaps_length, to_numeric_length; eauto.
Qed.

End WithParser.

End LoaderFacts.

(** ** The gap-filling policy of the loader *)

Import F64 Series Frame Loader.

(** The loader replaces each of [crude], [rbob], [ulsd] by [fill_gaps] of
    the column read as numbers in date order. *)
Lemma loader_cleans_prices str_to_float path df d c r u :
  getitem df "date" = Some d -> getitem df "crude" = Some c ->
  getitem df "rbob" = Some r -> getitem df "ulsd" = Some u ->
  exists out,
    load_price_history str_to_float path df None = Ok out /\
    forall l, l ∈ price_labels ->
      getitem out l =
        clean str_to_float (col_argsort true d) <$> getitem df l.
Proof.
  intros Hd Hc Hr Hu.
  destruct (LoaderFacts.load_clean str_to_float path df d c r u Hd Hc Hr Hu)
    as (out & Hout & _ & Hget & _).
  exists out. split; [done|]. intros l Hl. by rewrite Hget, decide_True.
Qed.

(** C7. Each price column goes through [fill_gaps] on its own.  There, a run
    of at most 7 missing values between two valid values takes the linear
    interpolant of its two bounds at each position (provided that interpolant
    is a number); one missing value between 10 and 20 becomes 15; a leading
    run takes the first valid value after it, and a trailing run the last
    valid value before it. *)
Theorem short_gaps_interpolated_ends_filled :
  (forall str_to_float path df d c r u,
     getitem df "date" = Some d -> getitem df "crude" = Some c ->
     getitem df "rbob" = Some r -> getitem df "ulsd" = Some u ->
     exists out,
       load_price_history str_to_float path df None = Ok out /\
       forall l, l ∈ price_labels ->
         getitem out l =
           clean str_to_float (col_argsort true d) <$> getitem df l) /\
  (forall pre post a b n k,
     valid a -> valid b -> n <= 7 -> k < n ->
     valid (interior pre a b n k) ->
     fill_gaps (pre ++ a :: replicate n nan ++ b :: post) !! (length pre + 1 + k)
       = Some (interior pre a b n k)) /\
  fill_gaps [of_Z 10; nan; of_Z 20] = [of_Z 10; of_Z 15; of_Z 20] /\
  (forall rest a m i,
     valid a -> i < m ->
     fill_gaps (replicate m nan ++ a :: rest) !! i = Some a) /\
  (forall pre a m k,
     valid a -> k < m ->
     fill_gaps (pre ++ a :: replicate m nan) !! (length pre + 1 + k) = Some a).
Proof.
  split_and!.
  - apply loader_cleans_prices.
  - intros pre post a b n k Ha Hb Hn Hk Hv.
    pose proof (GapFacts.fill_gaps_gap pre post a b n Ha Hb k Hk) as H.
    replace (k `min` 6) with k in H by lia. by apply H.
  - by vm_compute.
  - intros rest a m i Ha Hi. by apply GapFacts.fill_gaps_leading.
  - intros pre a m k Ha Hk. by apply GapFacts.fill_gaps_trailing.
Qed.

Lemma short_gaps_interpolated_ends_filled_witness :
  fill_gaps ([of_Z 4] ++ of_Z 10 :: replicate 3 nan ++ of_Z 18 :: [nan]) !! (1 + 1 + 1)
    = Some (of_Z 14) /\
  fill_gaps (replicate 2 nan ++ of_Z 3 :: [of_Z 5]) !! 1 = Some (of_Z 3) /\
  fill_gaps ([of_Z 5] ++ of_Z 3 :: replicate 9 nan) !! (1 + 1 + 8) = Some (of_Z 3).
Proof.
  destruct short_gaps_interpolated_ends_filled as (_ & Hin & _ & Hlead & Htrail).
  split_and!.
  - apply (Hin [of_Z 4] [nan] (of_Z 10) (of_Z 18) 3 1); (done || lia).
  - apply (Hlead [of_Z 5] (of_Z 3) 2 1); (done || lia).
  - apply (Htrail [of_Z 5] (of_Z 3) 9 8); (done || lia).
Defined.

(** C1, as stated, fails: the 10-day gap between 1 and 12 comes out as
    2, 3, ..., 8 followed by three more 8s. *)
Lemma long_gap_not_flat :
  exists v,
    (df ← load_price_history (fun _ => nan) "prices.csv" month None; get df "rbob")
      = Ok (FloatCol v) /\
    take 10 (drop 10 v) =
      of_Z <$> [2; 3; 4; 5; 6; 7; 8; 8; 8; 8]%Z /\
    ~ flat_filled (of_Z 1) (of_Z 12) (take 10 (drop 10 v)).
Proof.
  eexists. split; [by vm_compute|]. split; [by vm_compute|].
  intros H. specialize (H 0 _ eq_refl). by vm_compute in H.
Qed.

(** C1, amended. Each price column goes through [fill_gaps] on its own.
    There, in a run of more than 7 missing values between two valid values,
    the first 7 positions take the linear interpolant of the two bounds and
    every later position repeats the 7th (provided these interpolants are
    numbers); a run of 10 between 1 and 12 becomes 2, 3, 4, 5, 6, 7, 8, 8, 8,
    8. *)
Theorem long_gaps_sloped_then_held :
  (forall str_to_float path df d c r u,
     getitem df "date" = Some d -> getitem df "crude" = Some c ->
     getitem df "rbob" = Some r -> getitem df "ulsd" = Some u ->
     exists out,
       load_price_history str_to_float path df None = Ok out /\
       forall l, l ∈ price_labels ->
         getitem out l =
           clean str_to_float (col_argsort true d) <$> getitem df l) /\
  (forall pre post a b n k,
     valid a -> valid b -> 7 < n -> k < n ->
     valid (interior pre a b n (k `min` 6)) ->
     fill_gaps (pre ++ a :: replicate n nan ++ b :: post) !! (length pre + 1 + k)
       = Some (interior pre a b n (k `min` 6))) /\
  fill_gaps (of_Z 1 :: replicate 10 nan ++ [of_Z 12]) =
    of_Z <$> [1; 2; 3; 4; 5; 6; 7; 8; 8; 8; 8; 12]%Z.
Proof.
  split_and!.
  - apply loader_cleans_prices.
  - intros pre post a b n k Ha Hb _ Hk Hv.
    by apply GapFacts.fill_gaps_gap.
  - by vm_compute.
Qed.

Lemma long_gaps_sloped_then_held_witness :
  fill_gaps ([of_Z 0] ++ of_Z 1 :: replicate 10 nan ++ of_Z 12 :: [nan]) !! (1 + 1 + 8)
    = Some (of_Z 8).
Proof.
  destruct long_gaps_sloped_then_held as (_ & H & _).
  apply (H [of_Z 0] [nan] (of_Z 1) (of_Z 12) 10 8); (done || lia).
Defined.

(** ** Schema errors *)

(** The reference date only matters at the end of the loader. *)
Lemma load_today str_to_float path df t :
  load_price_history str_to_float path df (Some t) =
    load_price_history str_to_float path df None ≫= extend_to t.
Proof.
  unfold load_price_history. case_match; [done|].
  repeat match goal with
         | |- context [?r ≫= _] =>
             match type of r with
             | result frame => destruct r; simpl; try done
             end
         end.
Qed.




Lemma copy_deref p f w :
  heap w !! p = Some f ->
  (copy p ≫= deref) w =
    (Ok f, set_heap (<[fresh (dom (heap w)) := f]> (heap w)) w).
Proof.
  intros Hp. unfold mbind, M_bind, copy, deref. simpl.
  by rewrite Hp, lookup_insert_eq.
Qed.



(** ** Extending to the reference date *)

Module ExtendFacts.

Import FrameFacts.

Lemma date_max_None d : date_max d = None -> Forall (fun a => a = None) d.
Proof.
  induction d as [|[y|] d IH]; simpl; [done|by destruct (date_max d)|].
  intros H. constructor; auto.
Qed.

Lemma date_max_upper d D x :
  date_max d = Some D -> Some x ∈ d -> (x <= D)%Z.
Proof.
  revert D. induction d as [|a d IH]; intros D Hmax Hx; [by apply elem_of_nil in Hx|].
  simpl in Hmax. apply elem_of_cons in Hx.
  destruct a as [y|]; destruct (date_max d) as [m|] eqn:Hm.
  - injection Hmax as <-. destruct Hx as [[= ->]|Hx]; [lia|].
    specialize (IH _ eq_refl Hx). lia.
  - injection Hmax as <-. destruct Hx as [[= ->]|Hx]; [lia|].
    apply date_max_None in Hm. rewrite Forall_forall in Hm.
    by specialize (Hm _ Hx).
  - injection Hmax as <-. destruct Hx as [?|Hx]; [done|]. by apply IH.
  - done.
Qed.

Lemma date_max_elem d D : date_max d = Some D -> Some D ∈ d.
Proof.
  revert D. induction d as [|a d IH]; intros D Hmax; [done|].
  simpl in Hmax.
  destruct a as [y|]; destruct (date_max d) as [m|] eqn:Hm.
  - injection Hmax as <-.
    destruct (Z.max_spec y m) as [[_ ->]|[_ ->]]; [right; by apply IH|left].
  - injection Hmax as <-. left.
  - injection Hmax as <-. right. by apply IH.
  - done.
Qed.

Lemma col_last_row_length c : 0 < col_length c -> col_length (col_last_row c) = 1.
Proof. destruct c; simpl; rewrite length_drop; lia. Qed.

Lemma concat_plain df l :
  getitem (concat df (prod_map id col_last_row <$> df)) l =
    (fun c => col_append c (col_last_row c)) <$> getitem df l.
Proof.
  induction df as [|[k c] df IH]; simpl; [done|]. by case_decide.
Qed.

Lemma concat_last today df l :
  is_Some (getitem df "date") ->
  getitem (concat df (setitem (prod_map id col_last_row <$> df) "date" (DateCol [Some today]))) l
    = extended today l <$> getitem df l.
Proof.
  unfold extended. destruct (decide (l = "date"%string)) as [->|Hl].
  - induction df as [|[k c] df IH]; simpl; [by intros [? ?]|].
    destruct (decide (k = "date"%string)) as [->|Hk]; simpl; [done|].
    by repeat case_decide.
  - induction df as [|[k c] df IH]; simpl; [by intros [? ?]|].
    destruct (decide (k = "date"%string)) as [->|Hk]; simpl.
    + intros _. repeat case_decide; try done. apply concat_plain.
    + by repeat case_decide.
Qed.

Lemma concat_plain_rows n df :
  0 < n -> has_rows n df ->
  has_rows (S n) (concat df (prod_map id col_last_row <$> df)).
Proof.
  intros Hn. unfold has_rows. induction 1 as [|[k c] df Hc _ IH]; simpl; [done|].
  constructor; [|done]. simpl in *.
  pose proof (col_last_row_length c) as Hlast.
  destruct c; simpl in *; rewrite length_app; lia.
Qed.

Lemma concat_last_rows today n df d :
  0 < n -> has_rows n df -> getitem df "date" = Some (DateCol d) ->
  has_rows (S n)
    (concat df (setitem (prod_map id col_last_row <$> df) "date" (DateCol [Some today]))).
Proof.
  intros Hn. unfold has_rows. induction 1 as [|[k c] df Hc Hdf IH]; simpl; [done|].
  destruct (decide (k = "date"%string)) as [->|Hk]; simpl.
  - intros [= ->]. constructor.
    + simpl in *. rewrite length_app. simpl. lia.
    + by apply concat_plain_rows.
  - intros Hd. constructor; [|by apply IH]. simpl in *.
    pose proof (col_last_row_length c) as Hlast.
    destruct c; simpl in *; rewrite length_app; lia.
Qed.

Lemma concat_columns df last :
  length last = length df -> columns (concat df last) = columns df.
Proof.
  unfold columns, concat. revert last.
  induction df as [|[k c] df IH]; intros [|[k' c'] last] Hlen; simpl in *; try done.
  f_equal. apply IH. lia.
Qed.

Lemma setitem_length df l c :
  is_Some (getitem df l) -> length (setitem df l c) = length df.
Proof.
  induction df as [|[k c'] df IH]; simpl; [by intros [? ?]|].
  case_decide; simpl; [done|]. intros Hs. f_equal. by apply IH.
Qed.

(** A reference date after every date adds the last row again, dated with the
    reference date. *)
Lemma extend_appends today n df d :
  has_rows n df -> getitem df "date" = Some (DateCol d) ->
  date_ltb (date_max d) (Some today) = true ->
  exists out,
    extend_to today df = Ok out /\
    has_rows (S n) out /\
    columns out = columns df /\
    forall l, getitem out l = extended today l <$> getitem df l.
Proof.
  intros Hrows Hd Hlt. unfold extend_to, get. rewrite Hd. simpl. rewrite Hlt.
  assert (0 < n) as Hn.
  { rewrite <- (has_rows_getitem n df _ _ Hrows Hd). simpl.
    destruct d; [done|simpl; lia]. }
  unfold iloc_last. rewrite (nrows_has_rows n df _ _ Hrows Hd).
  rewrite decide_False by lia. simpl.
  eexists. split; [done|]. split_and!.
  - by eapply concat_last_rows.
  - apply concat_columns. rewrite setitem_length, length_fmap; [done|].
    rewrite getitem_fmap, Hd. by eexists.
  - intros l. apply concat_last. by eexists.
Qed.

Lemma extend_keeps today df d :
  getitem df "date" = Some (DateCol d) ->
  date_ltb (date_max d) (Some today) = false ->
  extend_to today df = Ok df.
Proof. intros Hd Hlt. unfold extend_to, get. by rewrite Hd; simpl; rewrite Hlt. Qed.

End ExtendFacts.

Lemma load_ok_required str_to_float path df today out :
  load_price_history str_to_float path df today = Ok out ->
  required ⊆ list_to_set (columns df).
Proof.
  unfold load_price_history. case_bool_decide; [done|]. by simpl.
Qed.

Lemma drop_last {A} (v : list A) :
  0 < length v -> exists x, last v = Some x /\ drop (length v - 1) v = [x].
Proof.
  induction v as [|x v _] using rev_ind; simpl; [lia|]. intros _.
  exists x. rewrite last_snoc, length_app. simpl. split; [done|].
  by rewrite drop_app_length' by lia.
Qed.

(** C6. With a reference date strictly after the latest date of the loaded
    table, the loader returns the table with one more row: its date is the
    reference date and its [crude], [rbob], [ulsd] are those of the row that
    was last; with a reference date not after the latest date it returns the
    table as without one. *)
Theorem reference_date_extension str_to_float path df n today base d D :
  has_rows n df ->
  load_price_history str_to_float path df None = Ok base ->
  getitem base "date" = Some (DateCol d) ->
  date_max d = Some D ->
  (Some D ∈ d /\ forall x, Some x ∈ d -> (x <= D)%Z) /\
  ((D < today)%Z ->
     exists out,
       load_price_history str_to_float path df (Some today) = Ok out /\
       has_rows n base /\ has_rows (S n) out /\
       getitem out "date" = Some (DateCol (d ++ [Some today])) /\
       forall l, l ∈ price_labels ->
         exists v x,
           getitem base l = Some (FloatCol v) /\ last v = Some x /\
           getitem out l = Some (FloatCol (v ++ [x]))) /\
  ((today <= D)%Z ->
     load_price_history str_to_float path df (Some today) = Ok base).
Proof.
  intros Hrows Hbase Hd Hmax.
  pose proof (load_ok_required _ _ _ _ _ Hbase) as Hreq.
  apply LoaderFacts.required_present in Hreq. rewrite !Forall_cons in Hreq.
  destruct Hreq as ([d0 Hd0] & [c Hc] & [r Hr] & [u Hu] & _).
  destruct (LoaderFacts.load_clean str_to_float path df d0 c r u Hd0 Hc Hr Hu)
    as (out' & Hout' & _ & Hget & Hkeep).
  rewrite Hbase in Hout'. injection Hout' as <-.
  specialize (Hkeep n Hrows).
  split_and!.
  - by apply ExtendFacts.date_max_elem.
  - intros x. by apply ExtendFacts.date_max_upper.
  - intros Hlt.
    destruct (ExtendFacts.extend_appends today n base d Hkeep Hd)
      as (out & Hout & Hrows' & _ & Hext).
    { rewrite Hmax. simpl. by apply Z.ltb_lt. }
    exists out. split_and!; try done.
    + by rewrite load_today, Hbase.
    + by rewrite Hext, Hd.
    + intros l Hl.
      assert (exists col, getitem df l = Some col) as [col Hcol].
      { unfold price_labels in Hl.
        rewrite !elem_of_cons, elem_of_nil in Hl.
        destruct Hl as [->|[->|[->|[]]]]; eauto. }
      pose proof (Hget l) as Hbl. rewrite decide_True, Hcol in Hbl by done.
      simpl in Hbl. unfold clean in Hbl.
      set (v := fill_gaps _) in Hbl.
      destruct (drop_last v) as (x & Hlast & Hdrop).
      { pose proof (FrameFacts.has_rows_getitem _ _ _ _ Hkeep Hbl) as Hv.
        pose proof (FrameFacts.has_rows_getitem _ _ _ _ Hkeep Hd) as Hn.
        simpl in Hv, Hn. rewrite Hv, <- Hn.
        destruct d; [done|simpl; lia]. }
      exists v, x. split_and!; try done.
      rewrite Hext, Hbl. simpl. unfold extended.
      rewrite decide_False.
      * simpl. by rewrite Hdrop.
      * unfold price_labels in Hl.
        rewrite !elem_of_cons, elem_of_nil in Hl. intuition congruence.
  - intros Hle. rewrite load_today, Hbase. simpl.
    apply (ExtendFacts.extend_keeps today base d Hd).
    rewrite Hmax. simpl. by apply Z.ltb_ge.
Qed.

Lemma reference_date_extension_witness :
  exists out,
    load_price_history (fun _ => nan) "p.csv" two_days (Some 5%Z) = Ok out /\
    getitem out "date" = Some (DateCol ([Some 1%Z; Some 2%Z] ++ [Some 5%Z])).
Proof.
  destruct (reference_date_extension (fun _ => nan) "p.csv" two_days 2 5%Z
              (default [] (match load_price_history (fun _ => nan) "p.csv" two_days None with
                           | Ok f => Some f | Raise _ => None end))
              [Some 1%Z; Some 2%Z] 2%Z)
    as (_ & Happend & _).
  - by repeat constructor.
  - by vm_compute.
  - by vm_compute.
  - done.
  - destruct Happend as (out & Hout & _ & _ & Hdate & _); [done|].
    exists out. by split.
Defined.

(** ** Date order and completeness of the loaded table *)

Module OrderFacts.

Import FrameFacts SeriesFacts.

Lemma date_ltb_asym a b : date_ltb a b = true -> date_ltb b a = false.
Proof.
  destruct a as [x|], b as [y|]; simpl; try done.
  intros ?%Z.ltb_lt. apply Z.ltb_ge. lia.
Qed.

Lemma filter_none {A} f (l : list A) :
  Forall (fun x => f x = false) l -> List.filter f l = [].
Proof. induction 1 as [|x l Hx _ IH]; simpl; [done|]. by rewrite Hx. Qed.


Lemma Sorted_dates_le (l : list (nat * option Z)) :
  Sorted (ascending date_ltb) l -> Forall (fun p => is_Some p.2) l ->
  Sorted Z.le ((fun p => default 0%Z p.2) <$> l).
Proof.
  induction 1 as [|p l Hl IH Hp]; intros Hs; simpl; [constructor|].
  apply Forall_cons in Hs as [[x Hx] Hs]. constructor; [by apply IH|].
  destruct Hp as [|q l Hpq]; simpl; constructor.
  apply Forall_cons in Hs as [[y Hy] _].
  unfold ascending in Hpq. rewrite Hx, Hy in *. simpl in *.
  by apply Z.ltb_ge.
Qed.


Lemma take_rows_fmap {A B} (f : A -> B) idx (l : list A) :
  take_rows idx (f <$> l) = f <$> take_rows idx l.
Proof.
  unfold take_rows. induction idx as [|i idx IH]; [done|].
  cbn [omap list_omap]. rewrite list_lookup_fmap, IH.
  by destruct (l !! i).
Qed.



End OrderFacts.



(** ** Comparisons and products of floats *)

Module F64Facts.

Import F64.

Lemma SFcompare_antisym a b :
  SFcompare b a = option_map CompOpp (SFcompare a b).
Proof.
  destruct a as [[]|[]| |[] ma ea], b as [[]|[]| |[] mb eb]; simpl; try done.
  - rewrite (Z.compare_antisym ea eb). destruct (ea ?= eb)%Z; simpl; try done.
    change (Pos.compare_cont Eq mb ma) with (Pos.compare mb ma).
    change (Pos.compare_cont Eq ma mb) with (Pos.compare ma mb).
    rewrite (Pos.compare_antisym ma mb). by destruct (ma ?= mb)%positive.
  - rewrite (Z.compare_antisym ea eb). destruct (ea ?= eb)%Z; simpl; try done.
    change (Pos.compare_cont Eq mb ma) with (Pos.compare mb ma).
    change (Pos.compare_cont Eq ma mb) with (Pos.compare ma mb).
    by rewrite (Pos.compare_antisym ma mb).
Qed.

Lemma ltb_asym a b : ltb a b = true -> ltb b a = false.
Proof.
  unfold ltb, SFltb. rewrite (SFcompare_antisym a b).
  by destruct (SFcompare a b) as [[]|].
Qed.


Lemma eqb_leb a b : eqb a b = true -> leb a b = true.
Proof. unfold eqb, leb, SFeqb, SFleb. by destruct (SFcompare a b) as [[]|]. Qed.



Lemma mul_comm a b : mul a b = mul b a.
Proof.
  unfold mul.
  destruct a as [[]|[]| |[] ma ea], b as [[]|[]| |[] mb eb]; simpl; try done;
    by rewrite (Pos.mul_comm ma mb), (Z.add_comm ea eb).
Qed.

End F64Facts.

(** ** The spread calculator *)

Module CalculatorFacts.

Import Calculator FrameFacts.

Lemma crack_series_lookup crude rbob ulsd i c r u :
  crude !! i = Some c -> rbob !! i = Some r -> ulsd !! i = Some u ->
  crack_series crude rbob ulsd !! i = Some (crack321 c r u).
Proof.
  intros Hc Hr Hu. unfold crack_series, crack321.
  rewrite lookup_zip_with, !list_lookup_fmap, lookup_zip_with, !list_lookup_fmap.
  by rewrite Hc, Hr, Hu.
Qed.

Lemma crack_series_length crude rbob ulsd n :
  length crude = n -> length rbob = n -> length ulsd = n ->
  length (crack_series crude rbob ulsd) = n.
Proof.
  intros Hc Hr Hu. unfold crack_series.
  rewrite !length_zip_with, !length_fmap, !length_zip_with, !length_fmap. lia.
Qed.

Lemma compute_crack_outcome p f w :
  heap w !! p = Some f -> compute_crack p w = outcome p f w.
Proof.
  intros Hp. unfold compute_crack, outcome.
  unfold mbind at 1, M_bind at 1. unfold copy at 1.
  unfold mbind at 1, M_bind at 1. unfold deref at 1. simpl.
  rewrite Hp, lookup_insert_eq. simpl.
  case_bool_decide; simpl; [|done].
  remember (Loader.get f "rbob" ≫= col_floats) as rbob eqn:Hr.
  remember (Loader.get f "ulsd" ≫= col_floats) as ulsd eqn:Hu.
  remember (Loader.get f "crude" ≫= col_floats) as crude eqn:Hc.
  unfold mbind, M_bind, column_at, lift, deref, store_column, mret, M_ret; simpl.
  rewrite !lookup_insert_eq. simpl.
  rewrite <- Hr, <- Hu, <- Hc.
  destruct rbob; simpl; [|reflexivity].
  destruct ulsd; simpl; [|reflexivity].
  destruct crude; simpl; [|reflexivity].
  unfold set_heap; simpl. by rewrite insert_insert_eq.
Qed.

End CalculatorFacts.

(** C5, as stated, fails in its example: for crude 80, rbob 2.40 and ulsd
    2.60 the spread is not 79.2, it is below 71. *)
Lemma crack_of_example_is_not_79_2 :
  exists k,
    returned_crack (Calculator.compute_crack 1%positive one_day_world)
      = Some (FloatCol [k]) /\
    eqb k (dec 792 1) = false /\
    ltb k (of_Z 71) = true.
Proof. eexists. split; [by vm_compute|]. by vm_compute. Qed.

(** C5, amended. For every row, [compute_crack] sets [crack] to
    [(2 * rbob + 1 * ulsd) * 42 - 3 * crude], each operation rounded once as
    float64 arithmetic does and nothing else; crude 80, rbob 2.40, ulsd 2.60
    give the float next above 70.8. *)
Theorem crack_is_three_two_one :
  (forall w p f d crude rbob ulsd,
     heap w !! p = Some f ->
     getitem f "date" = Some d ->
     getitem f "crude" = Some (FloatCol crude) ->
     getitem f "rbob" = Some (FloatCol rbob) ->
     getitem f "ulsd" = Some (FloatCol ulsd) ->
     exists ks,
       returned_crack (Calculator.compute_crack p w) = Some (FloatCol ks) /\
       (forall n, has_rows n f -> length ks = n) /\
       forall i c r u,
         crude !! i = Some c -> rbob !! i = Some r -> ulsd !! i = Some u ->
         ks !! i = Some (Calculator.crack321 c r u)) /\
  Calculator.crack321 (of_Z 80) (dec 240 2) (dec 260 2)
    = S754_finite false 4982107087778612 (-46) /\
  ltb (dec 708 1) (Calculator.crack321 (of_Z 80) (dec 240 2) (dec 260 2)) = true /\
  ltb (Calculator.crack321 (of_Z 80) (dec 240 2) (dec 260 2)) (dec 70801 3) = true.
Proof.
  split_and!; [|by vm_compute..].
  intros w p f d crude rbob ulsd Hp Hd Hc Hr Hu.
  rewrite (CalculatorFacts.compute_crack_outcome p f w Hp).
  unfold Calculator.outcome.
  rewrite bool_decide_eq_true_2.
  2:{ intros l Hl. apply elem_of_list_to_set.
      unfold Calculator.wanted in Hl.
      rewrite !elem_of_union, !elem_of_singleton in Hl.
      destruct Hl as [[[->| ->]| ->]| ->];
        by eapply FrameFacts.getitem_Some_columns. }
  unfold get. rewrite Hr, Hu, Hc. simpl.
  exists (Calculator.crack_series crude rbob ulsd).
  unfold returned_crack. simpl. rewrite lookup_insert_eq. simpl.
  rewrite FrameFacts.getitem_setitem_eq. split_and!; [done|..].
  - intros n Hn. apply CalculatorFacts.crack_series_length.
    + apply (FrameFacts.has_rows_getitem _ _ _ _ Hn Hc).
    + apply (FrameFacts.has_rows_getitem _ _ _ _ Hn Hr).
    + apply (FrameFacts.has_rows_getitem _ _ _ _ Hn Hu).
  - intros i c r u. apply CalculatorFacts.crack_series_lookup.
Qed.

Lemma crack_is_three_two_one_witness :
  exists ks,
    returned_crack (Calculator.compute_crack 1%positive one_day_world)
      = Some (FloatCol ks) /\
    ks !! 0 = Some (Calculator.crack321 (of_Z 80) (dec 240 2) (dec 260 2)).
Proof.
  destruct crack_is_three_two_one as (H & _).
  destruct (H one_day_world 1%positive one_day (DateCol [Some 1%Z])
              [of_Z 80] [dec 240 2] [dec 260 2]) as (ks & Hks & _ & Hrow);
    try done.
  exists ks. split; [done|]. by apply Hrow.
Defined.




(** ** The percentile ranker *)

Lemma dropna_spec series x :
  x ∈ Ranker.dropna series <-> x ∈ series /\ valid x.
Proof.
  unfold Ranker.dropna. rewrite !list_elem_of_In, filter_In.
  destruct (is_nan x); simpl; intuition congruence.
Qed.

(** C4. [compute_percentile] is 100 times the share of the non-missing values
    of the series that are less than or equal to the target, values equal to
    the target included; it is NaN when the series has no non-missing value;
    for [10, 20, 30, 40] and 30 it is 75.0. *)
Theorem percentile_is_share_at_or_below :
  (forall series value,
     Ranker.dropna series ≠ [] ->
     Ranker.compute_percentile series value =
       (of_Z 100 *
          (of_nat (length (List.filter (fun x => leb x value) (Ranker.dropna series)))
           / of_nat (length (Ranker.dropna series))))%f64) /\
  (forall series x, x ∈ Ranker.dropna series <-> x ∈ series /\ valid x) /\
  (forall x value, eqb x value = true -> leb x value = true) /\
  (forall series value,
     Ranker.dropna series = [] -> Ranker.compute_percentile series value = nan) /\
  (forall n value, Ranker.compute_percentile (replicate n nan) value = nan) /\
  Ranker.compute_percentile [of_Z 10; of_Z 20; of_Z 30; of_Z 40] (of_Z 30) = of_Z 75.
Proof.
  split_and!.
  - intros series value Hne. unfold Ranker.compute_percentile.
    rewrite decide_False by by destruct (Ranker.dropna series).
    by rewrite F64Facts.mul_comm.
  - apply dropna_spec.
  - apply F64Facts.eqb_leb.
  - intros series value Hnil. unfold Ranker.compute_percentile. by rewrite Hnil.
  - intros n value. unfold Ranker.compute_percentile.
    assert (Ranker.dropna (replicate n nan) = []) as ->; [|done].
    induction n as [|n IH]; [done|]. simpl. apply IH.
  - by vm_compute.
Qed.

Lemma percentile_is_share_at_or_below_witness :
  Ranker.compute_percentile [of_Z 1; nan; of_Z 2; of_Z 3] (of_Z 2) =
    (of_Z 100 * (of_nat 2 / of_nat 3))%f64 /\
  Ranker.compute_percentile [nan; nan] (of_Z 2) = nan.
Proof.
  destruct percentile_is_share_at_or_below as (Hshare & _ & _ & Hnone & _).
  split.
  - by apply (Hshare [of_Z 1; nan; of_Z 2; of_Z 3] (of_Z 2)).
  - by apply (Hnone [nan; nan] (of_Z 2)).
Defined.

(** ** The market note *)

(** C10. The outcome of [write_market_note], the text written included, is
    the same for any two reference dates: the argument is never read. *)
Theorem note_independent_of_today
    fmt1 date_text mean parents prices (today1 today2 : option Z) note_path citation_refs w :
  Reporter.write_market_note fmt1 date_text mean parents prices today1 note_path citation_refs w
  = Reporter.write_market_note fmt1 date_text mean parents prices today2 note_path citation_refs w.
Proof. reflexivity. Qed.

(** ** The scenario table *)

Module ScenarioFacts.

Import Scenario FrameFacts OrderFacts.



Lemma take_rows_Permutation {A} idx (l : list A) :
  idx ≡ₚ seq 0 (length l) -> take_rows idx l ≡ₚ l.
Proof.
  intros Hperm. unfold take_rows. rewrite Hperm.
  rewrite <- (enumerate_fst l).
  pose proof (take_rows_pairs l (enumerate l) (enumerate_at_position l)) as H.
  unfold take_rows in H. rewrite H.
  unfold enumerate. rewrite snd_zip; [done|]. by rewrite length_seq.
Qed.

(** The keys in the order the indexer of a descending sort picks them. *)
Section Descending.

Variable items : list float.

Let s := isort ltb (reverse (non_nans is_nan items)).
Let sp := sorted_pairs ltb is_nan false items.



Lemma sorted_pairs_valid : Forall (fun p : nat * float => valid p.2) sp.
Proof.
  subst sp. rewrite sorted_pairs_Permutation. unfold non_nans.
  eapply Forall_impl;
    [apply (filter_Forall_true (fun p : nat * float => negb (is_nan p.2)))|].
  intros p Hp. simpl in Hp. by destruct (is_nan p.2).
Qed.



End Descending.

Lemma rows_of_DataFrame rows : rows_of (DataFrame rows) = rows.
Proof.
  unfold rows_of, DataFrame. simpl.
  induction rows as [|[c r u k] rows IH]; simpl; [done|]. by f_equal.
Qed.

Lemma sorted_DataFrame indexer rows :
  prod_map id (col_take indexer) <$> DataFrame rows = DataFrame (take_rows indexer rows).
Proof. unfold DataFrame. simpl. by rewrite !take_rows_fmap. Qed.

End ScenarioFacts.



(** * Further properties *)

(** ** Gap filling as a whole *)

Module FillFacts.

Import SeriesFacts.

Lemma interpolate_all_valid limit ys :
  Forall (fun y => valid y) ys -> interpolate limit ys = ys.
Proof.
  intros Hv. unfold interpolate.
  destruct (negb (existsb _ ys)); [done|].
  assert (forallb (fun y => negb (is_nan y)) ys = true) as ->; [|done].
  apply forallb_forall. intros y Hy%list_elem_of_In.
  rewrite Forall_forall in Hv. by rewrite (Hv y Hy).
Qed.

Lemma interpolate_all_nan limit ys :
  Forall (fun y => is_nan y = true) ys -> interpolate limit ys = ys.
Proof.
  intros Hn. unfold interpolate.
  assert (existsb (fun y => negb (is_nan y)) ys = false) as ->; [|done].
  apply not_true_is_false. intros (y & Hy%list_elem_of_In & Hv)%existsb_exists.
  rewrite Forall_forall in Hn. by rewrite (Hn y Hy) in Hv.
Qed.

Lemma ffill_from_all_valid c ys :
  Forall (fun y => valid y) ys -> ffill_from c ys = ys.
Proof.
  intros Hv. revert c. induction Hv as [|y ys Hy _ IH]; intros c; simpl; [done|].
  by rewrite Hy, IH.
Qed.

Lemma ffill_all_nan ys :
  Forall (fun y => is_nan y = true) ys -> ffill ys = ys.
Proof.
  unfold ffill. induction 1 as [|y ys Hy _ IH]; simpl; [done|].
  rewrite Hy, IH. by rewrite (is_nan_true y Hy).
Qed.

Lemma bfill_all_nan ys :
  Forall (fun y => is_nan y = true) ys -> bfill ys = ys.
Proof.
  induction 1 as [|y ys Hy Hys IH]; simpl; [done|].
  rewrite Hy, IH. f_equal. rewrite (is_nan_true y Hy).
  destruct Hys as [|z ys Hz _]; [done|]. by rewrite (is_nan_true z Hz).
Qed.

Lemma fill_gaps_all_valid ys :
  Forall (fun y => valid y) ys -> fill_gaps ys = ys.
Proof.
  intros Hv. unfold fill_gaps, ffill.
  by rewrite interpolate_all_valid, ffill_from_all_valid, bfill_valid_id.
Qed.

Lemma fill_gaps_all_nan ys :
  Forall (fun y => is_nan y = true) ys -> fill_gaps ys = ys.
Proof.
  intros Hn. unfold fill_gaps.
  by rewrite interpolate_all_nan, ffill_all_nan, bfill_all_nan.
Qed.

(** A column is all missing or has a valid entry. *)
Lemma all_nan_or_valid ys :
  Forall (fun y => is_nan y = true) ys \/
  exists j v, ys !! j = Some v /\ valid v.
Proof.
  induction ys as [|y ys [IH|(j & v & Hj & Hv)]].
  - by left.
  - destruct (is_nan y) eqn:Hy.
    + left. by constructor.
    + right. by exists 0, y.
  - right. by exists (S j), v.
Qed.

(** The cleaned column is fixed by the fill: all valid or all missing. *)
Lemma fill_gaps_fixed ys : fill_gaps (fill_gaps ys) = fill_gaps ys.
Proof.
  destruct (all_nan_or_valid ys) as [Hn|(j & v & Hj & Hv)].
  - by rewrite !(fill_gaps_all_nan ys) by done.
  - apply fill_gaps_all_valid. by apply (fill_gaps_valid ys j v).
Qed.

End FillFacts.

(** X1. The gap fill never changes a value that is there: every valid entry
    of the column is found unchanged at its position, and the column keeps
    its length. *)
Theorem fill_keeps_valid_values ys :
  length (fill_gaps ys) = length ys /\
  forall i v, ys !! i = Some v -> valid v -> fill_gaps ys !! i = Some v.
Proof.
  split; [apply SeriesFacts.fill_gaps_length|].
  intros i v Hi Hv. unfold fill_gaps, ffill.
  apply SeriesFacts.bfill_lookup_valid; [|done].
  apply SeriesFacts.ffill_from_lookup_valid; [|done].
  rewrite (SeriesFacts.interpolate_lookup _ _ _ _ Hi). by rewrite Hv.
Qed.

Lemma fill_keeps_valid_values_witness :
  fill_gaps [nan; of_Z 3; nan; of_Z 7] !! 3 = Some (of_Z 7).
Proof.
  destruct (fill_keeps_valid_values [nan; of_Z 3; nan; of_Z 7]) as [_ H].
  by apply H.
Defined.

(** X2. A missing value is left after the gap fill exactly when the column
    is not empty and has no valid entry at all; such a column comes back as
    it was. *)
Theorem fill_leaves_missing_iff_all_missing ys :
  (Exists (fun y => is_nan y = true) (fill_gaps ys) <->
   ys ≠ [] /\ Forall (fun y => is_nan y = true) ys) /\
  (Forall (fun y => is_nan y = true) ys -> fill_gaps ys = ys).
Proof.
  split; [|apply FillFacts.fill_gaps_all_nan]. split.
  - intros Hex. split.
    + intros ->. by apply Exists_nil in Hex.
    + destruct (FillFacts.all_nan_or_valid ys) as [Hn|(j & v & Hj & Hv)]; [done|].
      pose proof (SeriesFacts.fill_gaps_valid ys j v Hj Hv) as Hall.
      apply Exists_exists in Hex as (y & Hy & Hnan).
      rewrite Forall_forall in Hall. specialize (Hall y Hy). congruence.
  - intros [Hne Hn]. rewrite FillFacts.fill_gaps_all_nan by done.
    destruct Hn as [|y ys Hy _]; [done|]. by apply Exists_cons_hd.
Qed.

Lemma fill_leaves_missing_iff_all_missing_witness :
  fill_gaps [nan; nan; nan] = [nan; nan; nan].
Proof.
  destruct (fill_leaves_missing_iff_all_missing [nan; nan; nan]) as [_ H].
  apply H. by repeat constructor.
Defined.

(** X3. Filling the gaps of a column that has been filled changes nothing. *)
Theorem fill_gaps_idempotent ys : fill_gaps (fill_gaps ys) = fill_gaps ys.
Proof. apply FillFacts.fill_gaps_fixed. Qed.

(** ** Keys that are already in order *)

Section OrderedKeys.

Context {K : Type}.
Variable ltb : K -> K -> bool.
Variable isna : K -> bool.

Lemma isort_sorted_id (l : list (nat * K)) :
  Sorted (ascending ltb) l -> isort ltb l = l.
Proof.
  induction 1 as [|x l Hl IH Hx]; simpl; [done|].
  rewrite IH. destruct Hx as [|y l Hxy]; simpl; [done|].
  unfold ascending in Hxy. by rewrite Hxy.
Qed.

Lemma filter_all {A} f (l : list A) :
  Forall (fun x => f x = true) l -> List.filter f l = l.
Proof. induction 1 as [|x l Hx _ IH]; simpl; [done|]. by rewrite Hx, IH. Qed.

Lemma zip_seq_keys (P : K -> Prop) n (keys : list K) :
  Forall P keys -> Forall (fun p : nat * K => P p.2) (zip (seq n (length keys)) keys).
Proof.
  intros H. revert n. induction H as [|k keys Hk _ IH]; intros n; simpl; [done|].
  constructor; [done|apply IH].
Qed.

Lemma zip_seq_Sorted n (keys : list K) :
  Sorted (fun a b => ltb b a = false) keys ->
  Sorted (ascending ltb) (zip (seq n (length keys)) keys).
Proof.
  intros H. revert n. induction H as [|k keys Hs IH Hk]; intros n; simpl; [constructor|].
  constructor; [apply IH|].
  destruct Hk as [|k' keys Hkk']; simpl; by constructor.
Qed.

Lemma enumerate_app (vs ns : list K) :
  enumerate (vs ++ ns) =
    zip (seq 0 (length vs)) vs ++ zip (seq (length vs) (length ns)) ns.
Proof.
  unfold enumerate. rewrite length_app, seq_app.
  apply zip_with_app. by rewrite length_seq.
Qed.

(** Keys in order, the missing ones last, are left where they are. *)
Lemma nargsort_ordered_id (vs ns : list K) :
  Forall (fun k => isna k = false) vs ->
  Forall (fun k => isna k = true) ns ->
  Sorted (fun a b => ltb b a = false) vs ->
  nargsort ltb isna true (vs ++ ns) = seq 0 (length (vs ++ ns)).
Proof.
  intros Hv Hn Hs. unfold nargsort, sorted_pairs, non_nans, nan_pairs.
  rewrite enumerate_app, !List.filter_app.
  rewrite (filter_all (fun p : nat * K => negb (isna p.2)) (zip _ vs)).
  2:{ eapply Forall_impl; [apply (zip_seq_keys _ _ _ Hv)|].
      intros p Hp. simpl in Hp. by rewrite Hp. }
  rewrite (OrderFacts.filter_none (fun p : nat * K => negb (isna p.2)) (zip _ ns)).
  2:{ eapply Forall_impl; [apply (zip_seq_keys _ _ _ Hn)|].
      intros p Hp. simpl in Hp. by rewrite Hp. }
  rewrite (OrderFacts.filter_none (fun p : nat * K => isna p.2) (zip _ vs)).
  2:{ eapply Forall_impl; [apply (zip_seq_keys _ _ _ Hv)|]. by intros p Hp. }
  rewrite (filter_all (fun p : nat * K => isna p.2) (zip _ ns)).
  2:{ eapply Forall_impl; [apply (zip_seq_keys _ _ _ Hn)|]. by intros p Hp. }
  rewrite app_nil_r. simpl.
  rewrite isort_sorted_id by by apply zip_seq_Sorted.
  rewrite !fst_zip by by rewrite length_seq.
  by rewrite length_app, seq_app.
Qed.

(** With every key missing, the order is the input order, ascending or not. *)
Lemma nargsort_all_nan asc (items : list K) :
  Forall (fun k => isna k = true) items ->
  nargsort ltb isna asc items = seq 0 (length items).
Proof.
  intros Hn. unfold nargsort, sorted_pairs, non_nans, nan_pairs.
  pose proof (zip_seq_keys _ 0 _ Hn) as Hp. fold (enumerate items) in Hp.
  rewrite (OrderFacts.filter_none (fun p : nat * K => negb (isna p.2))).
  2:{ eapply Forall_impl; [exact Hp|]. intros p Hq. simpl in Hq. by rewrite Hq. }
  rewrite (filter_all (fun p : nat * K => isna p.2)) by done.
  destruct asc; simpl; apply enumerate_fst.
Qed.

End OrderedKeys.

Lemma take_rows_seq {A} (l : list A) : take_rows (seq 0 (length l)) l = l.
Proof.
  rewrite <- (enumerate_fst l).
  rewrite (FrameFacts.take_rows_pairs l (enumerate l) (enumerate_at_position l)).
  unfold enumerate. apply snd_zip. by rewrite length_seq.
Qed.

(** ** The loader on its own output *)

Module ReloadFacts.

Import FrameFacts SeriesFacts.

Lemma setitem_same df l c : getitem df l = Some c -> setitem df l c = df.
Proof.
  induction df as [|[k c'] df IH]; simpl; [done|].
  case_decide; [by intros [= ->]; subst|]. intros Hg. by rewrite IH.
Qed.

Lemma col_take_seq c : col_take (seq 0 (col_length c)) c = c.
Proof. destruct c; simpl; by rewrite take_rows_seq. Qed.

Lemma sort_in_place n (df : frame) :
  has_rows n df -> prod_map id (col_take (seq 0 n)) <$> df = df.
Proof.
  unfold has_rows. induction 1 as [|[k c] df Hc _ IH]; [done|].
  rewrite fmap_cons, IH. simpl in *. subst n. unfold prod_map. simpl.
  by rewrite col_take_seq.
Qed.


Lemma Sorted_dates_keys zs :
  Sorted Z.le zs -> Sorted (fun a b => date_ltb b a = false) (Some <$> zs).
Proof.
  induction 1 as [|z zs Hs IH Hz]; simpl; constructor; [done|].
  destruct Hz as [|y zs Hzy]; simpl; constructor. simpl. by apply Z.ltb_ge.
Qed.

(** The dated rows in order and the rows without a date after them. *)
Lemma sorted_dates_nat (d : list (option Z)) :
  exists zs k,
    take_rows (nargsort date_ltb date_isna true d) d
      = (Some <$> zs) ++ replicate k None /\
    Sorted Z.le zs.
Proof.
  rewrite nargsort_pairs.
  rewrite take_rows_pairs by apply pairs_at_position.
  rewrite fmap_app.
  set (sorted := sorted_pairs date_ltb date_isna true d).
  set (nans := nan_pairs date_isna d).
  assert (Forall (fun p : nat * option Z => is_Some p.2) sorted) as Hsome.
  { subst sorted. rewrite sorted_pairs_Permutation. unfold non_nans.
    eapply Forall_impl;
      [apply (filter_Forall_true (fun p : nat * option Z => negb (date_isna p.2)))|].
    intros [i [z|]] Hp; simpl in *; [by eexists|done]. }
  assert (Forall (fun p : nat * option Z => p.2 = None) nans) as Hnone.
  { subst nans. unfold nan_pairs.
    eapply Forall_impl;
      [apply (filter_Forall_true (fun p : nat * option Z => date_isna p.2))|].
    by intros [i [z|]] Hp. }
  exists ((fun p => default 0%Z p.2) <$> sorted), (length nans). split.
  - f_equal.
    + rewrite <- list_fmap_compose. symmetry. apply Forall_fmap_ext_1.
      eapply Forall_impl; [exact Hsome|].
      intros [i k] [z Hz]; simpl in *. by subst.
    + clearbody nans. clear -Hnone.
      induction Hnone as [|[i a] nans Ha _ IH]; [done|].
      rewrite fmap_cons. simpl in *. subst. by f_equal.
  - apply OrderFacts.Sorted_dates_le; [|done].
    apply isort_Sorted, OrderFacts.date_ltb_asym.
Qed.

Section WithParser.

Variable str_to_float : string -> float.

(** A table in date order whose price columns are fixed by the fill is
    returned as it is. *)
Lemma load_fixed path n (out : frame) zs k :
  has_rows n out ->
  getitem out "date" = Some (DateCol ((Some <$> zs) ++ replicate k None)) ->
  Sorted Z.le zs ->
  (forall l, l ∈ price_labels ->
     exists v, getitem out l = Some (FloatCol v) /\ fill_gaps v = v) ->
  load_price_history str_to_float path out None = Ok out.
Proof.
  intros Hrows Hd Hs Hp.
  destruct (Hp "crude"%string) as (cv & Hc & Hcf); [repeat constructor|].
  destruct (Hp "rbob"%string) as (rv & Hr & Hrf); [repeat constructor|].
  destruct (Hp "ulsd"%string) as (uv & Hu & Huf); [repeat constructor|].
  unfold load_price_history.
  rewrite bool_decide_eq_true_2
    by (apply LoaderFacts.required_present; repeat constructor; eauto).
  unfold sort_values. rewrite Hd. simpl.
  rewrite nargsort_ordered_id.
  2:{ rewrite Forall_fmap. by apply Forall_true. }
  2:{ by apply Forall_replicate. }
  2:{ by apply Sorted_dates_keys. }
  pose proof (has_rows_getitem _ _ _ _ Hrows Hd) as Hlen. simpl in Hlen.
  rewrite Hlen, (sort_in_place n out Hrows).
  rewrite (LoaderFacts.cast_numeric_ok _ _ _ _ Hc). simpl.
  rewrite (setitem_same _ _ _ Hc).
  rewrite (LoaderFacts.cast_numeric_ok _ _ _ _ Hr). simpl.
  rewrite (setitem_same _ _ _ Hr).
  rewrite (LoaderFacts.cast_numeric_ok _ _ _ _ Hu). simpl.
  rewrite (setitem_same _ _ _ Hu).
  rewrite (LoaderFacts.fill_column_ok _ _ _ Hc). simpl.
  rewrite Hcf, (setitem_same _ _ _ Hc).
  rewrite (LoaderFacts.fill_column_ok _ _ _ Hr). simpl.
  rewrite Hrf, (setitem_same _ _ _ Hr).
  rewrite (LoaderFacts.fill_column_ok _ _ _ Hu). simpl.
  by rewrite Huf, (setitem_same _ _ _ Hu).
Qed.

(** What the loader returns without a reference date. *)
Lemma load_shape path df n d out :
  has_rows n df ->
  getitem df "date" = Some (DateCol d) ->
  load_price_history str_to_float path df None = Ok out ->
  has_rows n out /\
  columns out = columns df /\
  col_argsort true (DateCol d) ≡ₚ seq 0 n /\
  (forall l col, l ∉ price_labels -> getitem df l = Some col ->
     getitem out l = Some (col_take (col_argsort true (DateCol d)) col)) /\
  (exists zs k,
     getitem out "date" = Some (DateCol ((Some <$> zs) ++ replicate k None)) /\
     Sorted Z.le zs /\ (Some <$> zs) ++ replicate k None ≡ₚ d) /\
  (forall l, l ∈ price_labels ->
     exists v0, getitem out l = Some (FloatCol (fill_gaps v0))).
Proof.
  intros Hrows Hd Hout.
  pose proof (load_ok_required _ _ _ _ _ Hout) as Hreq.
  apply LoaderFacts.required_present in Hreq. rewrite !Forall_cons in Hreq.
  destruct Hreq as (_ & [c Hc] & [r Hr] & [u Hu] & _).
  destruct (LoaderFacts.load_clean str_to_float path df _ c r u Hd Hc Hr Hu)
    as (out' & Hout' & Hcols & Hget & Hkeep).
  rewrite Hout in Hout'. injection Hout' as <-.
  assert (col_argsort true (DateCol d) ≡ₚ seq 0 n) as Hperm.
  { rewrite <- (has_rows_getitem _ _ _ _ Hrows Hd).
    apply LoaderFacts.col_argsort_Permutation. }
  assert ("date"%string ∉ price_labels) as Hnd.
  { unfold price_labels. rewrite !elem_of_cons, elem_of_nil. intuition congruence. }
  split_and!; try done.
  - by apply Hkeep.
  - intros l col Hl Hcol. by rewrite Hget, decide_False, Hcol.
  - destruct (sorted_dates_nat d) as (zs & k & Hzs & Hs).
    exists zs, k. split_and!; [|done|].
    + rewrite Hget, decide_False, Hd by done. simpl. by rewrite Hzs.
    + rewrite <- Hzs. apply ScenarioFacts.take_rows_Permutation.
      simpl in Hperm. rewrite Hperm.
      by rewrite <- (has_rows_getitem _ _ _ _ Hrows Hd).
  - intros l Hl. rewrite Hget, decide_True by done.
    unfold price_labels in Hl. rewrite !elem_of_cons, elem_of_nil in Hl.
    destruct Hl as [->|[->|[->|[]]]]; rewrite ?Hc, ?Hr, ?Hu; by eexists.
Qed.

End WithParser.


Lemma date_max_reached d t :
  Some t ∈ d -> date_ltb (date_max d) (Some t) = false.
Proof.
  intros Ht. destruct (date_max d) as [M|] eqn:Hmax; [|done].
  simpl. apply Z.ltb_ge. by apply (ExtendFacts.date_max_upper d M t).
Qed.

(** A filled column with its last value repeated is still fixed by the fill. *)
Lemma fill_gaps_extended v0 :
  let v := fill_gaps v0 in
  fill_gaps (v ++ drop (length v - 1) v) = v ++ drop (length v - 1) v.
Proof.
  intros v. destruct (FillFacts.all_nan_or_valid v0) as [Hn|(j & x & Hj & Hx)].
  - apply FillFacts.fill_gaps_all_nan. subst v.
    rewrite FillFacts.fill_gaps_all_nan by done.
    apply Forall_app. split; [done|by apply Forall_drop].
  - apply FillFacts.fill_gaps_all_valid.
    pose proof (fill_gaps_valid v0 j x Hj Hx) as Hv. fold v in Hv.
    apply Forall_app. split; [done|by apply Forall_drop].
Qed.

End ReloadFacts.

(** ** What the loader keeps *)

(** X4. Without a reference date the loader returns a table with the same
    column labels in the same order and the same number of rows, and each
    column other than the three price columns holds its original entries,
    rearranged by one permutation of the rows. *)
Theorem loader_keeps_rows_and_columns str_to_float path df n d out :
  has_rows n df ->
  getitem df "date" = Some (DateCol d) ->
  load_price_history str_to_float path df None = Ok out ->
  has_rows n out /\
  columns out = columns df /\
  exists indexer,
    indexer ≡ₚ seq 0 n /\
    forall l col, l ∉ price_labels -> getitem df l = Some col ->
      getitem out l = Some (col_take indexer col).
Proof.
  intros Hrows Hd Hout.
  destruct (ReloadFacts.load_shape str_to_float path df n d out Hrows Hd Hout)
    as (Hr & Hc & Hperm & Hother & _).
  split_and!; [done..|]. by exists (col_argsort true (DateCol d)).
Qed.

Lemma loader_keeps_rows_and_columns_witness :
  columns (loaded (load_price_history (fun _ => nan) "p.csv" undated None))
    = columns undated.
Proof.
  destruct (loader_keeps_rows_and_columns (fun _ => nan) "p.csv" undated 3
              [Some 3%Z; None; Some 1%Z]
              (loaded (load_price_history (fun _ => nan) "p.csv" undated None)))
    as (_ & H & _); [by repeat constructor|done|by vm_compute|done].
Defined.

(** X5. In the table the loader returns, the rows that have a date come
    first, in non-decreasing date order, and the rows whose date is missing
    (NaT) come after them; the dates are those of the input. *)
Theorem dated_rows_in_order_undated_last str_to_float path df n d out :
  has_rows n df ->
  getitem df "date" = Some (DateCol d) ->
  load_price_history str_to_float path df None = Ok out ->
  exists zs k,
    getitem out "date" = Some (DateCol ((Some <$> zs) ++ replicate k None)) /\
    StronglySorted Z.le zs /\
    (Some <$> zs) ++ replicate k None ≡ₚ d.
Proof.
  intros Hrows Hd Hout.
  destruct (ReloadFacts.load_shape str_to_float path df n d out Hrows Hd Hout)
    as (_ & _ & _ & _ & (zs & k & Hdate & Hs & Hperm) & _).
  exists zs, k. split_and!; [done| |done].
  apply Sorted_StronglySorted; [apply _|done].
Qed.

Lemma dated_rows_in_order_undated_last_witness :
  exists zs k,
    getitem (loaded (load_price_history (fun _ => nan) "p.csv" undated None)) "date"
      = Some (DateCol ((Some <$> zs) ++ replicate k None)) /\
    StronglySorted Z.le zs /\
    (Some <$> zs) ++ replicate k None ≡ₚ [Some 3%Z; None; Some 1%Z].
Proof.
  apply (dated_rows_in_order_undated_last (fun _ => nan) "p.csv" undated 3);
    [by repeat constructor|done|by vm_compute].
Defined.

(** X6. Loading is idempotent: the table that the loader returned is
    returned unchanged when it is loaded again with the same reference date
    (whatever the path and the text parser), provided no two rows have the
    same date, so that the dates settle the order of the rows, and no
    reference date is given or every row has a date. *)
Theorem loading_twice_changes_nothing
    str_to_float str_to_float' path path' df n d today out :
  has_rows n df ->
  getitem df "date" = Some (DateCol d) ->
  distinct_dates d ->
  today = None \/ Forall is_Some d ->
  load_price_history str_to_float path df today = Ok out ->
  load_price_history str_to_float' path' out today = Ok out.
Proof.
  intros Hrows Hd _ Hnat Hout.
  assert (exists base, load_price_history str_to_float path df None = Ok base)
    as [base Hbase].
  { destruct today as [t|]; [|by exists out].
    rewrite load_today in Hout.
    destruct (load_price_history str_to_float path df None); [by eexists|done]. }
  destruct (ReloadFacts.load_shape str_to_float path df n d base Hrows Hd Hbase)
    as (Hr & _ & _ & _ & (zs & k & Hdate & Hs & Hperm) & Hprices).
  assert (load_price_history str_to_float' path' base None = Ok base) as Hfix.
  { apply (ReloadFacts.load_fixed str_to_float' path' n base zs k); try done.
    intros l Hl. destruct (Hprices l Hl) as (v0 & Hv).
    exists (fill_gaps v0). split; [done|apply FillFacts.fill_gaps_fixed]. }
  destruct today as [t|]; [|by rewrite Hbase in Hout; injection Hout as <-].
  destruct Hnat as [?|Hsome]; [done|].
  assert (k = 0) as ->.
  { destruct k as [|k]; [done|]. exfalso.
    assert (None ∈ d) as Hin.
    { rewrite <- Hperm. apply elem_of_app. right. by left. }
    rewrite Forall_forall in Hsome. by destruct (Hsome _ Hin). }
  simpl in Hdate. rewrite app_nil_r in Hdate.
  rewrite load_today, Hbase in Hout. simpl in Hout.
  destruct (date_ltb (date_max (Some <$> zs)) (Some t)) eqn:Hlt.
  - destruct (ExtendFacts.extend_appends t n base _ Hr Hdate Hlt)
      as (out' & Hout' & Hrows' & _ & Hext).
    rewrite Hout in Hout'. injection Hout' as <-.
    assert (getitem out "date" = Some (DateCol (Some <$> (zs ++ [t])))) as Hod.
    { rewrite Hext, Hdate. simpl. by rewrite fmap_app. }
    rewrite load_today.
    rewrite (ReloadFacts.load_fixed str_to_float' path' (S n) out (zs ++ [t]) 0);
      try done.
    + simpl. apply (ExtendFacts.extend_keeps t out _ Hod).
      apply ReloadFacts.date_max_reached. apply list_elem_of_fmap_2.
      apply elem_of_app. right. by left.
    + by rewrite app_nil_r.
    + apply StronglySorted_Sorted, StronglySorted_app.
      split_and!; [|apply Sorted_StronglySorted; [apply _|done]|by repeat constructor].
      intros z y Hz ->%list_elem_of_singleton.
      destruct (date_max (Some <$> zs)) as [D|] eqn:Hmax; [|done].
      simpl in Hlt. apply Z.ltb_lt in Hlt.
      assert (z <= D)%Z; [|lia].
      apply (ExtendFacts.date_max_upper _ _ _ Hmax). by apply list_elem_of_fmap_2.
    + intros l Hl. destruct (Hprices l Hl) as (v0 & Hv).
      exists (fill_gaps v0 ++ drop (length (fill_gaps v0) - 1) (fill_gaps v0)).
      split; [|apply ReloadFacts.fill_gaps_extended].
      rewrite Hext, Hv. simpl. unfold extended. rewrite decide_False; [done|].
      unfold price_labels in Hl. rewrite !elem_of_cons, elem_of_nil in Hl.
      intuition congruence.
  - rewrite (ExtendFacts.extend_keeps t base _ Hdate Hlt) in Hout.
    injection Hout as <-. rewrite load_today, Hfix. simpl.
    by apply (ExtendFacts.extend_keeps t base _ Hdate).
Qed.

Lemma loading_twice_changes_nothing_witness :
  load_price_history (fun _ => of_Z 1) "q.csv"
    (loaded (load_price_history (fun _ => nan) "p.csv" two_days (Some 5%Z))) (Some 5%Z)
  = Ok (loaded (load_price_history (fun _ => nan) "p.csv" two_days (Some 5%Z))).
Proof.
  apply (loading_twice_changes_nothing (fun _ => nan) (fun _ => of_Z 1)
           "p.csv" "q.csv" two_days 2 [Some 2%Z; Some 1%Z]).
  - by repeat constructor.
  - done.
  - intros [|[|i]] [|[|j]] z Hi Hj; simpl in *; rewrite ?lookup_nil in *; congruence.
  - right. repeat constructor; by eexists.
  - by vm_compute.
Defined.



(** ** The calculator in the pipeline *)

Module PipelineFacts.

Import Calculator FrameFacts.

Lemma wanted_present f :
  wanted ⊆ list_to_set (columns f) <->
  Forall (fun l => is_Some (getitem f l)) ["crude"; "rbob"; "ulsd"; "date"]%string.
Proof.
  unfold wanted. rewrite !Forall_cons, Forall_nil. split.
  - intros H. split_and!; try done; apply columns_getitem;
      apply (elem_of_list_to_set (C := gset string)), H;
      rewrite !elem_of_union, !elem_of_singleton; tauto.
  - intros (Hc & Hr & Hu & Hd & _) l Hl. apply elem_of_list_to_set.
    destruct Hd as [? ?%getitem_Some_columns], Hc as [? ?%getitem_Some_columns],
      Hr as [? ?%getitem_Some_columns], Hu as [? ?%getitem_Some_columns].
    rewrite !elem_of_union, !elem_of_singleton in Hl.
    by destruct Hl as [[[->| ->]| ->]| ->].
Qed.

(** With the four columns there and the prices numeric, the call returns the
    copy with its [crack] column. *)
Lemma compute_crack_numeric w p f d crude rbob ulsd :
  heap w !! p = Some f ->
  getitem f "date" = Some d ->
  getitem f "crude" = Some (FloatCol crude) ->
  getitem f "rbob" = Some (FloatCol rbob) ->
  getitem f "ulsd" = Some (FloatCol ulsd) ->
  compute_crack p w =
    (Ok (fresh (dom (heap w))),
     set_heap (<[fresh (dom (heap w)) :=
                   setitem f "crack" (FloatCol (crack_series crude rbob ulsd))]>
                 (heap w)) w).
Proof.
  intros Hp Hd Hc Hr Hu.
  rewrite (CalculatorFacts.compute_crack_outcome p f w Hp). unfold outcome.
  rewrite bool_decide_eq_true_2
    by (apply wanted_present; repeat constructor; eauto).
  unfold Loader.get. by rewrite Hr, Hu, Hc.
Qed.

Lemma setitem_setitem df l c c' :
  setitem (setitem df l c) l c' = setitem df l c'.
Proof.
  induction df as [|[k c0] df IH]; simpl.
  - by rewrite decide_True.
  - case_decide; simpl.
    + by rewrite decide_True.
    + rewrite decide_False by done. by rewrite IH.
Qed.



(** What [extend_to] leaves under each label. *)
Lemma extend_to_getitem t df out l :
  extend_to t df = Ok out ->
  getitem out l = getitem df l \/ getitem out l = extended t l <$> getitem df l.
Proof.
  unfold extend_to, Loader.get.
  destruct (getitem df "date") as [dates|] eqn:Hd; simpl; [|done].
  destruct dates as [d| |]; try done.
  destruct (date_ltb _ _); [|intros [= <-]; by left].
  unfold iloc_last. case_decide; simpl; [done|].
  intros [= <-]. right. apply ExtendFacts.concat_last. by eexists.
Qed.

Lemma loaded_prices str_to_float path df today out :
  load_price_history str_to_float path df today = Ok out ->
  is_Some (getitem out "date") /\
  forall l, l ∈ price_labels -> exists v, getitem out l = Some (FloatCol v).
Proof.
  intros Hout.
  assert (exists base, load_price_history str_to_float path df None = Ok base /\
            (today = None /\ out = base \/
             exists t, today = Some t /\ extend_to t base = Ok out))
    as (base & Hbase & Hcase).
  { destruct today as [t|]; [|exists out; split; [done|by left]].
    rewrite load_today in Hout.
    destruct (load_price_history str_to_float path df None) as [base|]; [|done].
    exists base. split; [done|]. right. by exists t. }
  pose proof (load_ok_required _ _ _ _ _ Hbase) as Hreq.
  apply LoaderFacts.required_present in Hreq. rewrite !Forall_cons in Hreq.
  destruct Hreq as ([d Hd] & [c Hc] & [r Hr] & [u Hu] & _).
  destruct (LoaderFacts.load_clean str_to_float path df d c r u Hd Hc Hr Hu)
    as (out' & Hout' & _ & Hget & _).
  rewrite Hbase in Hout'. injection Hout' as <-.
  assert (is_Some (getitem base "date")) as Hbd.
  { rewrite Hget, decide_False, Hd; [by eexists|].
    unfold price_labels. rewrite !elem_of_cons, elem_of_nil. intuition congruence. }
  assert (forall l, l ∈ price_labels -> exists v, getitem base l = Some (FloatCol v))
    as Hbp.
  { intros l Hl. rewrite Hget, decide_True by done.
    unfold price_labels in Hl. rewrite !elem_of_cons, elem_of_nil in Hl.
    destruct Hl as [->|[->|[->|[]]]]; rewrite ?Hc, ?Hr, ?Hu; by eexists. }
  destruct Hcase as [[_ ->]|(t & _ & Hext)]; [done|].
  split.
  - destruct (extend_to_getitem t base out "date" Hext) as [-> | ->]; [done|].
    destruct Hbd as [x ->]. by eexists.
  - intros l Hl. destruct (Hbp l Hl) as [v Hv].
    destruct (extend_to_getitem t base out l Hext) as [-> | ->]; [by eexists|].
    rewrite Hv. simpl. unfold extended. rewrite decide_False; [by eexists|].
    unfold price_labels in Hl. rewrite !elem_of_cons, elem_of_nil in Hl.
    intuition congruence.
Qed.

Lemma mul_nan_r x : mul x nan = nan.
Proof. unfold mul. by destruct x. Qed.
Lemma add_nan_l x : add nan x = nan.
Proof. done. Qed.
Lemma add_nan_r x : add x nan = nan.
Proof. unfold add. by destruct x. Qed.
Lemma mul_nan_l x : mul nan x = nan.
Proof. done. Qed.
Lemma sub_nan_l x : sub nan x = nan.
Proof. done. Qed.
Lemma sub_nan_r x : sub x nan = nan.
Proof. unfold sub. by destruct x. Qed.

Lemma crack321_nan c r u :
  is_nan c = true \/ is_nan r = true \/ is_nan u = true -> crack321 c r u = nan.
Proof.
  unfold crack321.
  intros [->%SeriesFacts.is_nan_true|[->%SeriesFacts.is_nan_true| ->%SeriesFacts.is_nan_true]].
  - by rewrite mul_nan_r, sub_nan_r.
  - by rewrite mul_nan_r, add_nan_l, mul_nan_l, sub_nan_l.
  - by rewrite mul_nan_r, add_nan_r, mul_nan_l, sub_nan_l.
Qed.

End PipelineFacts.

(** X8. Computing the spread of a table that [compute_crack] returned gives
    that table again: the recomputed [crack] column is the one it has. *)
Theorem recomputing_crack_changes_nothing w p f q w1 :
  heap w !! p = Some f ->
  Calculator.compute_crack p w = (Ok q, w1) ->
  exists q2 w2,
    Calculator.compute_crack q w1 = (Ok q2, w2) /\
    heap w2 !! q2 = heap w1 !! q.
Proof.
  intros Hp. rewrite (CalculatorFacts.compute_crack_outcome p f w Hp).
  unfold Calculator.outcome.
  case_bool_decide as Hw; [|done].
  destruct (get f "rbob" ≫= Calculator.col_floats) as [rbob|] eqn:Hr; [|done].
  destruct (get f "ulsd" ≫= Calculator.col_floats) as [ulsd|] eqn:Hu; [|done].
  destruct (get f "crude" ≫= Calculator.col_floats) as [crude|] eqn:Hc; [|done].
  intros [= <- <-]. simpl.
  set (C := FloatCol (Calculator.crack_series crude rbob ulsd)).
  set (w1 := set_heap _ w).
  assert (heap w1 !! fresh (dom (heap w)) = Some (setitem f "crack" C)) as Hq.
  { subst w1. simpl. apply lookup_insert_eq. }
  rewrite (CalculatorFacts.compute_crack_outcome _ _ w1 Hq).
  unfold Calculator.outcome.
  rewrite bool_decide_eq_true_2.
  2:{ intros l Hl. specialize (Hw l Hl).
      apply elem_of_list_to_set in Hw. apply elem_of_list_to_set.
      apply FrameFacts.columns_getitem in Hw as [c' Hc'].
      destruct (decide ("crack"%string = l)) as [<-|Hne].
      - eapply FrameFacts.getitem_Some_columns, FrameFacts.getitem_setitem_eq.
      - eapply FrameFacts.getitem_Some_columns.
        by rewrite FrameFacts.getitem_setitem_ne. }
  unfold get in *. rewrite !FrameFacts.getitem_setitem_ne by done.
  rewrite Hr, Hu, Hc. eexists _, _. split; [done|].
  simpl. rewrite lookup_insert_eq. subst C.
  by rewrite PipelineFacts.setitem_setitem.
Qed.

Lemma recomputing_crack_changes_nothing_witness :
  exists q2 w2,
    Calculator.compute_crack 2%positive
      (Calculator.compute_crack 1%positive one_day_world).2 = (Ok q2, w2) /\
    heap w2 !! q2 = heap (Calculator.compute_crack 1%positive one_day_world).2 !! 2%positive.
Proof.
  apply (recomputing_crack_changes_nothing one_day_world 1%positive one_day);
    by vm_compute.
Defined.

(** X9. Every table that the loader returns is accepted by [compute_crack]:
    the call returns a table with a float [crack] column. *)
Theorem loaded_table_is_accepted str_to_float path df today out w p :
  load_price_history str_to_float path df today = Ok out ->
  heap w !! p = Some out ->
  exists q ks,
    (Calculator.compute_crack p w).1 = Ok q /\
    returned_crack (Calculator.compute_crack p w) = Some (FloatCol ks).
Proof.
  intros Hout Hp.
  destruct (PipelineFacts.loaded_prices _ _ _ _ _ Hout) as ([d Hd] & Hprices).
  destruct (Hprices "crude"%string) as [c Hc]; [repeat constructor|].
  destruct (Hprices "rbob"%string) as [r Hr]; [repeat constructor|].
  destruct (Hprices "ulsd"%string) as [u Hu]; [repeat constructor|].
  rewrite (PipelineFacts.compute_crack_numeric w p out d c r u Hp Hd Hc Hr Hu).
  eexists _, _. split; [done|].
  unfold returned_crack. simpl. rewrite lookup_insert_eq. simpl.
  by rewrite FrameFacts.getitem_setitem_eq.
Qed.

Lemma loaded_table_is_accepted_witness :
  exists q ks,
    (Calculator.compute_crack 1%positive
       (World {[ 1%positive :=
                   loaded (load_price_history (fun _ => nan) "p.csv" two_days (Some 5%Z)) ]}
          ∅ ∅)).1 = Ok q /\
    returned_crack
      (Calculator.compute_crack 1%positive
         (World {[ 1%positive :=
                     loaded (load_price_history (fun _ => nan) "p.csv" two_days (Some 5%Z)) ]}
            ∅ ∅)) = Some (FloatCol ks).
Proof.
  apply (loaded_table_is_accepted (fun _ => nan) "p.csv" two_days (Some 5%Z)
           (loaded (load_price_history (fun _ => nan) "p.csv" two_days (Some 5%Z))));
    by vm_compute.
Defined.



(** X11. A row in which [crude], [rbob] or [ulsd] is missing gets a missing
    [crack]. *)
Theorem missing_price_gives_missing_crack w p f d crude rbob ulsd :
  heap w !! p = Some f ->
  getitem f "date" = Some d ->
  getitem f "crude" = Some (FloatCol crude) ->
  getitem f "rbob" = Some (FloatCol rbob) ->
  getitem f "ulsd" = Some (FloatCol ulsd) ->
  exists ks,
    returned_crack (Calculator.compute_crack p w) = Some (FloatCol ks) /\
    forall i c r u,
      crude !! i = Some c -> rbob !! i = Some r -> ulsd !! i = Some u ->
      is_nan c = true \/ is_nan r = true \/ is_nan u = true ->
      ks !! i = Some nan.
Proof.
  intros Hp Hd Hc Hr Hu.
  rewrite (PipelineFacts.compute_crack_numeric w p f d crude rbob ulsd Hp Hd Hc Hr Hu).
  exists (Calculator.crack_series crude rbob ulsd). split.
  - unfold returned_crack. simpl. rewrite lookup_insert_eq. simpl.
    by rewrite FrameFacts.getitem_setitem_eq.
  - intros i c r u Hi Hj Hk Hnan.
    rewrite (CalculatorFacts.crack_series_lookup _ _ _ _ _ _ _ Hi Hj Hk).
    by rewrite PipelineFacts.crack321_nan.
Qed.

Lemma missing_price_gives_missing_crack_witness :
  exists ks,
    returned_crack
      (Calculator.compute_crack 1%positive (World {[ 1%positive := two_days ]} ∅ ∅))
      = Some (FloatCol ks) /\
    ks !! 0 = Some nan.
Proof.
  destruct (missing_price_gives_missing_crack
              (World {[ 1%positive := two_days ]} ∅ ∅) 1%positive two_days
              (DateCol [Some 2%Z; Some 1%Z]) [of_Z 81; of_Z 80]
              [nan; dec 240 2] [dec 260 2; nan]) as (ks & Hks & Hnan); try done.
  exists ks. split; [done|]. eapply Hnan; try done. right. by left.
Defined.

(** ** The ranker and the scenario table at their edges *)

Module RankFacts.

Lemma filter_Permutation {A} (f : A -> bool) (l l' : list A) :
  l ≡ₚ l' -> List.filter f l ≡ₚ List.filter f l'.
Proof.
  induction 1 as [|x l l' _ IH|x y l|l l' l'' _ IH1 _ IH2]; simpl.
  - done.
  - destruct (f x); by rewrite IH.
  - destruct (f x), (f y); try done. apply perm_swap.
  - by rewrite IH1.
Qed.

Lemma scenario_crack_nan crude rbob ulsd dc dp :
  is_nan crude = true \/ is_nan rbob = true \/ is_nan ulsd = true ->
  Scenario.crack (Scenario.scenario crude rbob ulsd dc dp) = nan.
Proof.
  unfold Scenario.scenario. cbv zeta. cbn [Scenario.crack].
  intros [->%SeriesFacts.is_nan_true|[->%SeriesFacts.is_nan_true| ->%SeriesFacts.is_nan_true]].
  - by rewrite (PipelineFacts.add_nan_l dc), PipelineFacts.mul_nan_r,
      PipelineFacts.sub_nan_r.
  - by rewrite (PipelineFacts.add_nan_l dp), PipelineFacts.mul_nan_r,
      (PipelineFacts.add_nan_l (ulsd + dp)%f64), PipelineFacts.mul_nan_l,
      PipelineFacts.sub_nan_l.
  - by rewrite (PipelineFacts.add_nan_l dp), PipelineFacts.add_nan_r,
      PipelineFacts.mul_nan_l, PipelineFacts.sub_nan_l.
Qed.

End RankFacts.

(** X12. The percentile depends only on the non-missing values of the series,
    whatever their order: two series whose non-missing values are the same
    up to order give the same percentile. *)
Theorem percentile_ignores_order_and_missing series series' value :
  Ranker.dropna series ≡ₚ Ranker.dropna series' ->
  Ranker.compute_percentile series value = Ranker.compute_percentile series' value.
Proof.
  intros Hperm. unfold Ranker.compute_percentile, Ranker.count_le.
  rewrite (Permutation_length Hperm).
  by rewrite (Permutation_length (RankFacts.filter_Permutation _ _ _ Hperm)).
Qed.

Lemma percentile_ignores_order_and_missing_witness :
  Ranker.compute_percentile [of_Z 1; nan; of_Z 2] (of_Z 1) =
  Ranker.compute_percentile [of_Z 2; of_Z 1] (of_Z 1).
Proof.
  apply percentile_ignores_order_and_missing. vm_compute. apply perm_swap.
Defined.

(** X13. When a base value is missing, every scenario has a missing spread
    and the sort moves nothing: the nine rows come in the order of the two
    loops. *)
Theorem scenarios_of_missing_base_keep_loop_order crude rbob ulsd :
  is_nan crude = true \/ is_nan rbob = true \/ is_nan ulsd = true ->
  exists out,
    Scenario.build_scenario_table crude rbob ulsd = Ok out /\
    Scenario.rows_of out = Scenario.scenarios crude rbob ulsd /\
    Forall (fun r => Scenario.crack r = nan) (Scenario.rows_of out).
Proof.
  intros Hnan.
  assert (Forall (fun r => Scenario.crack r = nan) (Scenario.scenarios crude rbob ulsd))
    as Hall.
  { unfold Scenario.scenarios, Scenario.crude_moves, Scenario.prod_moves.
    repeat constructor; by apply RankFacts.scenario_crack_nan. }
  set (rows := Scenario.scenarios crude rbob ulsd) in *.
  assert (nargsort ltb is_nan false (Scenario.crack <$> rows) = seq 0 (length rows))
    as Hidx.
  { rewrite <- (length_fmap Scenario.crack rows). apply nargsort_all_nan.
    apply Forall_fmap. eapply Forall_impl; [exact Hall|].
    intros r Hr. simpl. by rewrite Hr. }
  assert (Scenario.build_scenario_table crude rbob ulsd =
            Ok (Scenario.DataFrame (take_rows (seq 0 (length rows)) rows))) as Hbuild.
  { rewrite <- ScenarioFacts.sorted_DataFrame, <- Hidx. reflexivity. }
  clearbody rows. rewrite take_rows_seq in Hbuild.
  exists (Scenario.DataFrame rows).
  by rewrite ScenarioFacts.rows_of_DataFrame.
Qed.

Lemma scenarios_of_missing_base_keep_loop_order_witness :
  exists out,
    Scenario.build_scenario_table (of_Z 80) nan (dec 260 2) = Ok out /\
    Scenario.rows_of out = Scenario.scenarios (of_Z 80) nan (dec 260 2) /\
    Forall (fun r => Scenario.crack r = nan) (Scenario.rows_of out).
Proof.
  apply (scenarios_of_missing_base_keep_loop_order (of_Z 80) nan (dec 260 2)).
  right. by left.
Defined.

(** ** The market note and the world *)

Module ReporterFacts.

Import Calculator Reporter FrameFacts.

(** Whatever the outcome, the calculator leaves a world that differs from
    the one it found at the fresh location only. *)
Lemma outcome_world p f w :
  exists g,
    (outcome p f w).2 = set_heap (<[fresh (dom (heap w)) := g]> (heap w)) w.
Proof.
  unfold outcome. case_bool_decide; [|by eexists].
  destruct (Loader.get f "rbob" ≫= col_floats); [|by eexists].
  destruct (Loader.get f "ulsd" ≫= col_floats); [|by eexists].
  destruct (Loader.get f "crude" ≫= col_floats); by eexists.
Qed.

Lemma lookup_fresh (h : gmap loc frame) q g x :
  h !! q = Some g -> <[fresh (dom h) := x]> h !! q = Some g.
Proof.
  intros Hq. rewrite lookup_insert_ne; [done|].
  intros <-. apply (is_fresh (dom h)). apply elem_of_dom. by eexists.
Qed.

Lemma col_floats_length c v : col_floats c = Ok v -> length v = col_length c.
Proof.
  destruct c as [d|x|o]; simpl; [done|by intros [= ->]|].
  destruct (mapM obj_float o) as [v'|] eqn:Hm; [|done].
  intros [= <-]. symmetry. by eapply length_mapM.
Qed.

Lemma nrows_setitem n df l c :
  has_rows n df -> col_length c = n -> nrows (setitem df l c) = n.
Proof.
  destruct df as [|[k c'] df]; simpl; [done|].
  intros [Hc _]%Forall_cons ?. by case_decide.
Qed.

(** The last row of the table that the calculator returned. *)
Lemma latest_crack_setitem n df ks :
  has_rows n df -> length ks = n ->
  latest_crack (setitem df "crack" (FloatCol ks)) =
    match last ks with Some k => Ok k | None => Raise IndexError end.
Proof.
  intros Hrows Hlen. unfold latest_crack, latest_at.
  rewrite (nrows_setitem n) by done.
  unfold Loader.get. rewrite getitem_setitem_eq. simpl.
  case_decide; [|by destruct (last ks)].
  subst. by destruct ks.
Qed.

Lemma latest_at_setitem n df c l :
  has_rows n df -> col_length c = n -> l ≠ "crack"%string ->
  latest_at (setitem df "crack" c) l =
    if decide (n = 0) then Raise IndexError
    else col ← Loader.get df l;
         match col_last col with Some x => Ok x | None => Raise IndexError end.
Proof.
  intros Hrows Hlen Hl. unfold latest_at.
  rewrite (nrows_setitem n) by done.
  unfold Loader.get. by rewrite getitem_setitem_ne.
Qed.

Section WithFormats.

Variable fmt1 : float -> string.
Variable date_text : scalar -> result string.
Variable mean : list float -> float.
Variable parents : string -> gset string.

Local Ltac frame_of H :=
  match type of H with
  | _ = set_heap (<[?q := _]> _) _ =>
      apply (f_equal (fun w => heap w !! q)) in H; simpl in H;
      rewrite !lookup_insert_eq in H; injection H as <-
  end.

(** A run of the reporter: the two copies, then either an error with the
    files as they were or the write. *)
Lemma note_run prices today note_path citation_refs w f :
  heap w !! prices = Some f ->
  exists h,
    (forall q g, heap w !! q = Some g -> h !! q = Some g) /\
    write_market_note fmt1 date_text mean parents prices today note_path
      citation_refs w =
    match note_of fmt1 date_text mean citation_refs f with
    | Ok text =>
        (Ok tt, World h (dirs w ∪ parents note_path) (<[note_path := text]> (files w)))
    | Raise e => (Raise e, set_heap h w)
    end.
Proof.
  intros Hp. unfold note_of, write_market_note.
  unfold mbind at 1, M_bind at 1. unfold copy at 1. rewrite Hp. simpl.
  set (q1 := fresh (dom (heap w))).
  set (w1 := set_heap (<[q1 := f]> (heap w)) w).
  assert (heap w1 !! q1 = Some f) as Hq1 by apply lookup_insert_eq.
  unfold mbind at 1, M_bind at 1.
  rewrite (CalculatorFacts.compute_crack_outcome q1 f w1 Hq1).
  destruct (outcome_world q1 f w1) as [g Hw2].
  exists (<[fresh (dom (heap w1)) := g]> (heap w1)). split.
  { intros q x Hq. apply lookup_fresh. subst w1. simpl. by apply lookup_fresh. }
  revert Hw2. unfold outcome.
  destruct (bool_decide _); [|intros Hh; by frame_of Hh].
  destruct (Loader.get f "rbob" ≫= col_floats) as [rbob|e]; [|intros Hh; by frame_of Hh].
  destruct (Loader.get f "ulsd" ≫= col_floats) as [ulsd|e]; [|intros Hh; by frame_of Hh].
  destruct (Loader.get f "crude" ≫= col_floats) as [crude|e]; [|intros Hh; by frame_of Hh].
  simpl. intros Hh. frame_of Hh.
  unfold mbind at 1, M_bind at 1. unfold deref at 1. simpl.
  rewrite lookup_insert_eq. simpl.
  unfold mbind at 1, M_bind at 1. unfold lift at 1.
  destruct (latest_crack _) as [latest|e]; [|done].
  unfold mbind at 1, M_bind at 1. unfold column_at at 1.
  unfold mbind at 1, M_bind at 1. unfold deref at 1.
  unfold lift at 1. simpl. rewrite lookup_insert_eq. simpl.
  unfold Loader.get at 1. rewrite getitem_setitem_eq. simpl.
  unfold mbind at 1, M_bind at 1. unfold lift at 1.
  destruct (latest_at _ "date") as [d|e]; [|done].
  unfold mbind at 1, M_bind at 1. unfold lift at 1. simpl.
  destruct (date_text d) as [heading|e]; [|done].
  reflexivity.
Qed.

End WithFormats.

End ReporterFacts.

(** X14. [write_market_note] works on copies and writes one file: every
    table of the caller is afterwards what it was and no file other than the
    note is touched.  When the call raises for its table (a column absent or
    not numeric, no row, a date that cannot be formatted) no file and no
    directory has been written; when it returns, the note exists and the
    directories above it have been made. *)
Theorem note_touches_only_its_file
    fmt1 date_text mean parents prices today note_path citation_refs w f :
  heap w !! prices = Some f ->
  let out :=
    Reporter.write_market_note fmt1 date_text mean parents prices today note_path
      citation_refs w in
  (forall q g, heap w !! q = Some g -> heap out.2 !! q = Some g) /\
  (forall path, path ≠ note_path -> files out.2 !! path = files w !! path) /\
  match out.1 with
  | Ok _ => dirs out.2 = dirs w ∪ parents note_path /\ is_Some (files out.2 !! note_path)
  | Raise _ => dirs out.2 = dirs w /\ files out.2 = files w
  end.
Proof.
  intros Hp out.
  destruct (ReporterFacts.note_run fmt1 date_text mean parents prices today
              note_path citation_refs w f Hp) as (h & Hh & Hrun).
  subst out. rewrite Hrun.
  destruct (note_of fmt1 date_text mean citation_refs f) as [text|e]; simpl.
  - split_and!; [done| |done|].
    + intros path Hne. by rewrite lookup_insert_ne.
    + rewrite lookup_insert_eq. by eexists.
  - done.
Qed.

Lemma note_touches_only_its_file_witness :
  heap (Reporter.write_market_note (fun _ => "x"%string) (fun _ => Ok "d"%string)
          (fun _ => nan) (fun _ => {[ "out"%string ]}) 1%positive None "out/note.md" []
          one_day_world).2 !! 1%positive = Some one_day /\
  dirs (Reporter.write_market_note (fun _ => "x"%string) (fun _ => Ok "d"%string)
          (fun _ => nan) (fun _ => {[ "out"%string ]}) 1%positive None "out/note.md" []
          one_day_world).2 = dirs one_day_world ∪ {[ "out"%string ]}.
Proof.
  destruct (note_touches_only_its_file (fun _ => "x"%string) (fun _ => Ok "d"%string)
              (fun _ => nan) (fun _ => {[ "out"%string ]}) 1%positive None
              "out/note.md" [] one_day_world one_day) as (Hheap & _ & Hout).
  - done.
  - split.
    + by apply Hheap.
    + by destruct Hout as [Hdirs _].
Defined.

Module NoteFacts.

Import Calculator Reporter FrameFacts ReporterFacts.

Lemma column_length n f l v :
  has_rows n f -> Loader.get f l ≫= col_floats = Ok v -> length v = n.
Proof.
  intros Hrows. unfold Loader.get.
  destruct (getitem f l) as [c|] eqn:Hc; simpl; [|done].
  intros Hv. rewrite (col_floats_length c v Hv).
  by apply (FrameFacts.has_rows_getitem n f l).
Qed.

(** The note as a function of the row count and the four columns read. *)
Lemma note_of_columns fmt1 date_text mean citation_refs n f :
  has_rows n f ->
  note_of fmt1 date_text mean citation_refs f =
    if bool_decide (wanted ⊆ list_to_set (columns f)) then
      rbob ← Loader.get f "rbob" ≫= col_floats;
      ulsd ← Loader.get f "ulsd" ≫= col_floats;
      crude ← Loader.get f "crude" ≫= col_floats;
      latest ← match last (crack_series crude rbob ulsd) with
                | Some k => Ok k
                | None => Raise IndexError
                end;
      latest_date ←
        (if decide (n = 0) then Raise IndexError
         else col ← Loader.get f "date";
              match col_last col with Some x => Ok x | None => Raise IndexError end);
      heading ← date_text latest_date;
      Ok (note_text fmt1 heading latest
            (if is_nan latest then nan
             else Ranker.compute_percentile (crack_series crude rbob ulsd) latest)
            (mean (crack_series crude rbob ulsd)) citation_refs)
    else Raise ValueError_must_contain.
Proof.
  intros Hrows. unfold note_of. case_bool_decide; [|done].
  destruct (Loader.get f "rbob" ≫= col_floats) as [rbob|] eqn:Hr; [|done].
  destruct (Loader.get f "ulsd" ≫= col_floats) as [ulsd|] eqn:Hu; [|done].
  destruct (Loader.get f "crude" ≫= col_floats) as [crude|] eqn:Hc; [|done].
  simpl.
  assert (length (crack_series crude rbob ulsd) = n) as Hlen.
  { apply CalculatorFacts.crack_series_length; by eapply column_length. }
  rewrite (latest_crack_setitem n) by done.
  by rewrite (latest_at_setitem n) by done.
Qed.

Lemma wanted_agree f g :
  (forall l, l ∈ ["date"; "crude"; "rbob"; "ulsd"]%string -> getitem f l = getitem g l) ->
  bool_decide (wanted ⊆ list_to_set (columns f)) =
  bool_decide (wanted ⊆ list_to_set (columns g)).
Proof.
  intros Hsame. apply bool_decide_ext.
  rewrite !PipelineFacts.wanted_present, !Forall_cons, !Forall_nil.
  rewrite !(Hsame "date"%string), !(Hsame "crude"%string),
    !(Hsame "rbob"%string), !(Hsame "ulsd"%string); [done|..];
    rewrite !elem_of_cons; tauto.
Qed.

End NoteFacts.

(** X15. The note is made from the row count and the columns [date], [crude],
    [rbob] and [ulsd] alone: a table with the same rows in these four
    columns, whatever else it holds (a [crack] column of its own included),
    gives the same result, the same files and the same directories. *)
Theorem note_reads_only_four_columns
    fmt1 date_text mean parents prices today note_path citation_refs w f g n :
  heap w !! prices = Some f ->
  has_rows n f -> has_rows n g ->
  (forall l, l ∈ ["date"; "crude"; "rbob"; "ulsd"]%string -> getitem f l = getitem g l) ->
  let out :=
    Reporter.write_market_note fmt1 date_text mean parents prices today note_path
      citation_refs w in
  let out' :=
    Reporter.write_market_note fmt1 date_text mean parents prices today note_path
      citation_refs (set_heap (<[prices := g]> (heap w)) w) in
  out.1 = out'.1 /\ files out.2 = files out'.2 /\ dirs out.2 = dirs out'.2.
Proof.
  intros Hp Hf Hg Hsame out out'.
  destruct (ReporterFacts.note_run fmt1 date_text mean parents prices today
              note_path citation_refs w f Hp) as (h & _ & Hrun).
  destruct (ReporterFacts.note_run fmt1 date_text mean parents prices today
              note_path citation_refs (set_heap (<[prices := g]> (heap w)) w) g)
    as (h' & _ & Hrun'); [apply lookup_insert_eq|].
  subst out out'. rewrite Hrun, Hrun'.
  rewrite (NoteFacts.note_of_columns fmt1 date_text mean citation_refs n f Hf).
  rewrite (NoteFacts.note_of_columns fmt1 date_text mean citation_refs n g Hg).
  rewrite (NoteFacts.wanted_agree f g Hsame).
  unfold get.
  rewrite !(Hsame "date"%string), !(Hsame "crude"%string),
    !(Hsame "rbob"%string), !(Hsame "ulsd"%string)
    by (rewrite !elem_of_cons; tauto).
  by destruct (if bool_decide _ then _ else _).
Qed.

Lemma note_reads_only_four_columns_witness :
  (Reporter.write_market_note (fun _ => "x"%string) (fun _ => Ok "d"%string)
     (fun _ => nan) (fun _ => ∅) 1%positive None "note.md" [] one_day_world).1
  = (Reporter.write_market_note (fun _ => "x"%string) (fun _ => Ok "d"%string)
       (fun _ => nan) (fun _ => ∅) 1%positive None "note.md" []
       (set_heap (<[1%positive := [ ("date"%string, DateCol [Some 1%Z]);
                                    ("crude"%string, FloatCol [of_Z 80]);
                                    ("rbob"%string, FloatCol [dec 240 2]);
                                    ("ulsd"%string, FloatCol [dec 260 2]) ]]>
                    (heap one_day_world)) one_day_world)).1.
Proof.
  destruct (note_reads_only_four_columns (fun _ => "x"%string) (fun _ => Ok "d"%string)
              (fun _ => nan) (fun _ => ∅) 1%positive None "note.md" [] one_day_world
              one_day
              [ ("date"%string, DateCol [Some 1%Z]);
                ("crude"%string, FloatCol [of_Z 80]);
                ("rbob"%string, FloatCol [dec 240 2]);
                ("ulsd"%string, FloatCol [dec 260 2]) ] 1) as (H & _).
  - done.
  - by repeat constructor.
  - by repeat constructor.
  - intros l Hl. rewrite !elem_of_cons, elem_of_nil in Hl.
    by destruct Hl as [->|[->|[->|[->|[]]]]].
  - exact H.
Defined.

(** X16. A table that lacks one of [date], [crude], [rbob], [ulsd] makes
    [write_market_note] raise the [ValueError] of [compute_crack]; a table
    with the four columns, numeric prices and no row makes it raise an
    [IndexError]. *)
Theorem note_of_unusable_table_raises
    fmt1 date_text mean parents prices today note_path citation_refs w f :
  heap w !! prices = Some f ->
  let out :=
    Reporter.write_market_note fmt1 date_text mean parents prices today note_path
      citation_refs w in
  (~ Calculator.wanted ⊆ list_to_set (columns f) ->
   out.1 = Raise ValueError_must_contain) /\
  (Calculator.wanted ⊆ list_to_set (columns f) ->
   has_rows 0 f ->
   (forall l, l ∈ price_labels -> exists v, get f l ≫= Calculator.col_floats = Ok v) ->
   out.1 = Raise IndexError).
Proof.
  intros Hp out.
  destruct (ReporterFacts.note_run fmt1 date_text mean parents prices today
              note_path citation_refs w f Hp) as (h & _ & Hrun).
  subst out. rewrite Hrun. split.
  - intros Hw. unfold note_of. by rewrite bool_decide_eq_false_2.
  - intros Hw Hrows Hnum.
    rewrite (NoteFacts.note_of_columns fmt1 date_text mean citation_refs 0 f Hrows).
    rewrite bool_decide_eq_true_2 by done.
    destruct (Hnum "crude"%string) as [crude Hc]; [repeat constructor|].
    destruct (Hnum "rbob"%string) as [rbob Hr]; [repeat constructor|].
    destruct (Hnum "ulsd"%string) as [ulsd Hu]; [repeat constructor|].
    rewrite Hr, Hu, Hc. simpl.
    assert (Calculator.crack_series crude rbob ulsd = []) as ->; [|done].
    apply length_zero_iff_nil.
    apply CalculatorFacts.crack_series_length; by eapply NoteFacts.column_length.
Qed.

Lemma note_of_unusable_table_raises_witness :
  (Reporter.write_market_note (fun _ => "x"%string) (fun _ => Ok "d"%string)
     (fun _ => nan) (fun _ => ∅) 1%positive None "note.md" []
     (World {[ 1%positive := [("date"%string, DateCol [Some 1%Z])] ]} ∅ ∅)).1
  = Raise ValueError_must_contain /\
  (Reporter.write_market_note (fun _ => "x"%string) (fun _ => Ok "d"%string)
     (fun _ => nan) (fun _ => ∅) 1%positive None "note.md" []
     (World {[ 1%positive := [ ("date"%string, DateCol []);
                               ("crude"%string, FloatCol []);
                               ("rbob"%string, FloatCol []);
                               ("ulsd"%string, FloatCol []) ] ]} ∅ ∅)).1
  = Raise IndexError.
Proof.
  split.
  - eapply (note_of_unusable_table_raises _ _ _ _ 1%positive); [done|].
    intros Hsub. pose proof (bool_decide_pack _ Hsub) as Hb. by vm_compute in Hb.
  - eapply (note_of_unusable_table_raises _ _ _ _ 1%positive); [done| | |].
    + apply (bool_decide_unpack _). by vm_compute.
    + by repeat constructor.
    + intros l Hl. unfold price_labels in Hl. rewrite !elem_of_cons, elem_of_nil in Hl.
      destruct Hl as [->|[->|[->|[]]]]; by eexists.
Defined.

(** X17. For a table with at least one row, float prices and a last date
    that can be formatted, [write_market_note] returns and the file holds the
    text whose spread is the 3-2-1 spread of the prices of the last row,
    whose percentile ranks that spread in the recomputed spreads of the
    table (or is missing when the spread is), and whose average is taken of
    these spreads; a [crack] column that the table brought is not read. *)
Theorem note_reports_last_row
    fmt1 date_text mean parents prices today note_path citation_refs w f n
    dates crude rbob ulsd d c r u heading :
  heap w !! prices = Some f ->
  has_rows n f ->
  getitem f "date" = Some dates ->
  getitem f "crude" = Some (FloatCol crude) ->
  getitem f "rbob" = Some (FloatCol rbob) ->
  getitem f "ulsd" = Some (FloatCol ulsd) ->
  Reporter.col_last dates = Some d ->
  last crude = Some c -> last rbob = Some r -> last ulsd = Some u ->
  date_text d = Ok heading ->
  let out :=
    Reporter.write_market_note fmt1 date_text mean parents prices today note_path
      citation_refs w in
  let k := Calculator.crack321 c r u in
  let ks := Calculator.crack_series crude rbob ulsd in
  out.1 = Ok tt /\
  files out.2 !! note_path =
    Some (note_text fmt1 heading k
            (if is_nan k then nan else Ranker.compute_percentile ks k)
            (mean ks) citation_refs).
Proof.
  intros Hp Hrows Hd Hc Hr Hu Hdl Hcl Hrl Hul Hh out k ks.
  destruct (ReporterFacts.note_run fmt1 date_text mean parents prices today
              note_path citation_refs w f Hp) as (h & _ & Hrun).
  subst out. rewrite Hrun.
  rewrite (NoteFacts.note_of_columns fmt1 date_text mean citation_refs n f Hrows).
  rewrite bool_decide_eq_true_2
    by (apply PipelineFacts.wanted_present; repeat constructor; eauto).
  unfold get. rewrite Hr, Hu, Hc, Hd. simpl. fold ks.
  pose proof (FrameFacts.has_rows_getitem n f _ _ Hrows Hc) as Hnc.
  pose proof (FrameFacts.has_rows_getitem n f _ _ Hrows Hr) as Hnr.
  pose proof (FrameFacts.has_rows_getitem n f _ _ Hrows Hu) as Hnu.
  simpl in Hnc, Hnr, Hnu.
  assert (last ks = Some k) as ->.
  { rewrite last_lookup in *. subst ks k.
    rewrite (CalculatorFacts.crack_series_length crude rbob ulsd n) by done.
    apply CalculatorFacts.crack_series_lookup; congruence. }
  simpl. rewrite decide_False.
  2:{ intros ->. by destruct crude. }
  rewrite Hdl. simpl. rewrite Hh. simpl. split; [done|].
  apply lookup_insert_eq.
Qed.

Lemma note_reports_last_row_witness :
  files (Reporter.write_market_note (fun _ => "x"%string) (fun _ => Ok "d"%string)
           (fun _ => nan) (fun _ => ∅) 1%positive None "note.md" [] one_day_world).2
    !! "note.md"%string =
  Some (note_text (fun _ => "x"%string) "d"
          (Calculator.crack321 (of_Z 80) (dec 240 2) (dec 260 2))
          (if is_nan (Calculator.crack321 (of_Z 80) (dec 240 2) (dec 260 2)) then nan
           else Ranker.compute_percentile
                  (Calculator.crack_series [of_Z 80] [dec 240 2] [dec 260 2])
                  (Calculator.crack321 (of_Z 80) (dec 240 2) (dec 260 2)))
          nan []).
Proof.
  destruct (note_reports_last_row (fun _ => "x"%string) (fun _ => Ok "d"%string)
              (fun _ => nan) (fun _ => ∅) 1%positive None "note.md" [] one_day_world
              one_day 1 (DateCol [Some 1%Z]) [of_Z 80] [dec 240 2] [dec 260 2]
              (Reporter.SDate (Some 1%Z)) (of_Z 80) (dec 240 2) (dec 260 2) "d")
    as (_ & H); try done.
  by repeat constructor.
Defined.

(** ** The chart *)

Module PlotterFacts.

Import Plotter FrameFacts.

Lemma keep_rows_cons {A} b mask (x : A) l :
  keep_rows (b :: mask) (x :: l) =
    if b then x :: keep_rows mask l else keep_rows mask l.
Proof. unfold keep_rows. simpl. by destruct b. Qed.

Lemma keep_rows_nil_l {A} (l : list A) : keep_rows [] l = [].
Proof. done. Qed.

Lemma keep_rows_nil_r {A} mask : keep_rows mask (@nil A) = [].
Proof. unfold keep_rows. by destruct mask. Qed.

Lemma keep_rows_Forall {A} (P : A -> Prop) mask l :
  Forall P l -> Forall P (keep_rows mask l).
Proof.
  intros Hl. revert mask. induction Hl as [|x l Hx _ IH]; intros mask.
  - by rewrite keep_rows_nil_r.
  - destruct mask as [|b mask]; [by rewrite keep_rows_nil_l|].
    rewrite keep_rows_cons. destruct b; [constructor|]; auto.
Qed.

Lemma keep_rows_StronglySorted {A} (R : A -> A -> Prop) mask l :
  StronglySorted R l -> StronglySorted R (keep_rows mask l).
Proof.
  intros Hl. revert mask. induction Hl as [|x l _ IH Hx]; intros mask.
  - rewrite keep_rows_nil_r. constructor.
  - destruct mask as [|b mask]; [rewrite keep_rows_nil_l; constructor|].
    rewrite keep_rows_cons. destruct b; [|done].
    constructor; [done|]. by apply keep_rows_Forall.
Qed.

Lemma keep_rows_zip {A B} mask (l : list A) (k : list B) :
  zip (keep_rows mask l) (keep_rows mask k) = keep_rows mask (zip l k).
Proof.
  revert l k. induction mask as [|b mask IH]; intros l k; [done|].
  destruct l as [|x l]; [by rewrite !keep_rows_nil_r|].
  destruct k as [|y k].
  { rewrite keep_rows_nil_r. simpl. rewrite keep_rows_nil_r. by destruct (keep_rows _ _). }
  simpl. rewrite !keep_rows_cons. destruct b; simpl; by rewrite IH.
Qed.

(** Keeping the rows where a test holds is filtering. *)
Lemma keep_rows_filter {A} (f : A -> bool) (l : list A) :
  keep_rows (f <$> l) l = List.filter f l.
Proof.
  induction l as [|x l IH]; [done|].
  rewrite fmap_cons, keep_rows_cons, IH. simpl. by destruct (f x).
Qed.

Lemma keep_rows_length_le {A} mask (l : list A) : length (keep_rows mask l) <= length l.
Proof.
  revert mask. induction l as [|x l IH]; intros mask.
  - by rewrite keep_rows_nil_r.
  - destruct mask as [|b mask]; [rewrite keep_rows_nil_l; simpl; lia|].
    rewrite keep_rows_cons. specialize (IH mask). destruct b; simpl; lia.
Qed.

Lemma keep_rows_snd {A B} (f : B -> bool) (l : list (A * B)) :
  keep_rows (f <$> l.*2) l = List.filter (fun r => f r.2) l.
Proof.
  rewrite <- list_fmap_compose. apply (keep_rows_filter (fun r => f r.2)).
Qed.

Lemma take_rows_zip {A B} idx (l : list A) (k : list B) :
  length l = length k ->
  take_rows idx (zip l k) = zip (take_rows idx l) (take_rows idx k).
Proof.
  intros Hlen. unfold take_rows. induction idx as [|i idx IH]; [done|].
  cbn [omap list_omap]. rewrite lookup_zip_with.
  destruct (l !! i) as [x|] eqn:Hx; simpl.
  - destruct (lookup_lt_is_Some_2 k i) as [y Hy].
    { rewrite <- Hlen. by eapply lookup_lt_Some. }
    rewrite Hy. simpl. by rewrite IH.
  - rewrite (lookup_ge_None_2 k i); [done|].
    rewrite <- Hlen. by apply lookup_ge_None.
Qed.

Lemma dated_then_undated zs k :
  Sorted Z.le zs -> StronglySorted date_le ((Some <$> zs) ++ replicate k None).
Proof.
  intros Hs. apply (Sorted_StronglySorted _) in Hs.
  apply StronglySorted_app. split_and!.
  - intros a b (z & -> & _)%list_elem_of_fmap Hb.
    by apply elem_of_replicate in Hb as [-> _].
  - induction Hs as [|z zs _ IH Hz]; simpl; constructor; [done|].
    by apply Forall_fmap.
  - induction k as [|k IH]; simpl; constructor; [done|].
    apply Forall_forall. by intros b [-> _]%elem_of_replicate.
Qed.

Lemma today_row_None xs ys :
  length xs = length ys ->
  today_row xs ys = [] -> Forall (fun a => a = None) xs.
Proof.
  intros Hlen Hnil. unfold today_row in Hnil.
  destruct (date_max xs) as [D|] eqn:Hmax.
  - exfalso. apply ExtendFacts.date_max_elem in Hmax.
    apply list_elem_of_lookup_1 in Hmax as [i Hi].
    destruct (lookup_lt_is_Some_2 ys i) as [y Hy].
    { rewrite <- Hlen. by eapply lookup_lt_Some. }
    assert ((Some D, y) ∈ List.filter
              (fun r : option Z * float => bool_decide (is_Some r.1 /\ r.1 = Some D))
              (zip xs ys)) as Hin; [|by rewrite Hnil in Hin; apply elem_of_nil in Hin].
    apply list_elem_of_In, filter_In. split.
    + apply list_elem_of_In. eapply list_elem_of_lookup_2.
      rewrite lookup_zip_with, Hi. simpl. by rewrite Hy.
    + apply bool_decide_eq_true_2. simpl. split; [by eexists|done].
  - clear Hnil Hlen. induction xs as [|[z|] xs IH]; [constructor| |].
    + simpl in Hmax. by destruct (date_max xs).
    + constructor; [done|]. by apply IH.
Qed.

Section WithLibraries.

Variable quantile : list float -> float -> float.
Variable fmt1 : float -> string.

(** The figure of a table of Timestamps and float spreads. *)
Lemma plot_saved prices today outpath n d ks :
  has_rows n prices ->
  getitem prices "date" = Some (DateCol d) ->
  getitem prices "crack" = Some (FloatCol ks) ->
  exists xs ys,
    plot_crack_time_series quantile fmt1 prices today outpath =
      Saved (draw quantile fmt1 xs ys) /\
    length xs = length ys /\
    Forall (fun y => is_nan y = false) ys /\
    StronglySorted date_le xs /\
    zip xs ys ≡ₚ List.filter (fun r => negb (is_nan r.2)) (zip d ks).
Proof.
  intros Hrows Hd Hk.
  pose proof (has_rows_getitem _ _ _ _ Hrows Hd) as Hnd.
  pose proof (has_rows_getitem _ _ _ _ Hrows Hk) as Hnk. simpl in Hnd, Hnk.
  set (idx := nargsort date_ltb date_isna true d).
  assert (idx ≡ₚ seq 0 n) as Hperm.
  { subst idx. rewrite <- Hnd. apply nargsort_Permutation. }
  set (mask := (fun x => negb (is_nan x)) <$> take_rows idx ks).
  exists (keep_rows mask (take_rows idx d)), (keep_rows mask (take_rows idx ks)).
  assert (length (take_rows idx d) = length (take_rows idx ks)) as Hlen.
  { rewrite !take_rows_length; [done|..]; rewrite ?Hnd, ?Hnk;
      by apply Permutation_seq_lt. }
  assert (zip (keep_rows mask (take_rows idx d)) (keep_rows mask (take_rows idx ks))
          = List.filter (fun r => negb (is_nan r.2)) (take_rows idx (zip d ks))) as Hzip.
  { rewrite keep_rows_zip, take_rows_zip by congruence.
    subst mask. rewrite <- (snd_zip (take_rows idx d) (take_rows idx ks)) at 1 by lia.
    apply (keep_rows_snd (fun x => negb (is_nan x))). }
  split_and!.
  - unfold plot_crack_time_series.
    rewrite bool_decide_eq_false_2.
    2:{ intros [H|H]; apply H; by eapply getitem_Some_columns. }
    unfold sort_values. rewrite Hd. simpl. fold idx.
    unfold dropna, Loader.get. rewrite getitem_fmap, Hk. simpl. fold mask.
    by rewrite !getitem_fmap, Hd, Hk.
  - apply (f_equal length) in Hzip.
    assert (length (keep_rows mask (take_rows idx d)) =
            length (keep_rows mask (take_rows idx ks))); [|done].
    clear Hzip. revert Hlen. generalize (take_rows idx d) (take_rows idx ks). clear.
    induction mask as [|b mask IH]; intros l k Hlen; [done|].
    destruct l as [|x l], k as [|y k]; try done.
    rewrite !keep_rows_cons. injection Hlen as Hlen.
    destruct b; simpl; by rewrite (IH l k).
  - subst mask. rewrite (keep_rows_filter (fun x => negb (is_nan x))).
    apply Forall_forall. intros y [_ Hy]%list_elem_of_In%filter_In.
    by destruct (is_nan y).
  - apply keep_rows_StronglySorted.
    destruct (ReloadFacts.sorted_dates_nat d) as (zs & k & Hz & Hs).
    fold idx in Hz. rewrite Hz. by apply dated_then_undated.
  - rewrite Hzip. apply RankFacts.filter_Permutation.
    apply ScenarioFacts.take_rows_Permutation.
    rewrite length_zip_with. by rewrite Hnd, Hnk, Nat.min_id.
Qed.

End WithLibraries.

End PlotterFacts.

(** X18. For a table of Timestamps and float spreads the chart is drawn, and
    its line is made of the rows that have a spread, each once: no point of
    the line has a missing spread, and along the line the dates never
    decrease, points without a date coming last. *)
Theorem chart_line_is_rows_with_spread_in_date_order
    quantile fmt1 prices today outpath n d ks :
  has_rows n prices ->
  getitem prices "date" = Some (DateCol d) ->
  getitem prices "crack" = Some (FloatCol ks) ->
  exists fig,
    Plotter.plot_crack_time_series quantile fmt1 prices today outpath = Plotter.Saved fig /\
    length (Plotter.line_x fig) = length (Plotter.line_y fig) /\
    Forall (fun y => is_nan y = false) (Plotter.line_y fig) /\
    StronglySorted date_le (Plotter.line_x fig) /\
    zip (Plotter.line_x fig) (Plotter.line_y fig)
      ≡ₚ List.filter (fun r => negb (is_nan r.2)) (zip d ks).
Proof.
  intros Hrows Hd Hk.
  destruct (PlotterFacts.plot_saved quantile fmt1 prices today outpath n d ks
              Hrows Hd Hk) as (xs & ys & Hplot & Hrest).
  by exists (Plotter.draw quantile fmt1 xs ys).
Qed.

Lemma chart_line_is_rows_with_spread_in_date_order_witness :
  exists fig,
    Plotter.plot_crack_time_series (fun _ _ => nan) (fun _ => "x"%string) charted None
      "crack.png" = Plotter.Saved fig /\
    Forall (fun y => is_nan y = false) (Plotter.line_y fig) /\
    StronglySorted date_le (Plotter.line_x fig).
Proof.
  destruct (chart_line_is_rows_with_spread_in_date_order
              (fun _ _ => nan) (fun _ => "x"%string) charted None "crack.png" 3
              [Some 3%Z; Some 1%Z; Some 2%Z] [of_Z 30; nan; of_Z 20])
    as (fig & Hfig & _ & Hy & Hx & _); [by repeat constructor|done..|].
  by exists fig.
Defined.

(** X19. The point that the chart marks is a row of the table that has a
    spread, at the latest date of such rows, labelled with its spread; the
    reference date plays no part.  No point is marked exactly when no dated
    row has a spread. *)
Theorem chart_marks_latest_row_with_spread
    quantile fmt1 prices today outpath n d ks :
  has_rows n prices ->
  getitem prices "date" = Some (DateCol d) ->
  getitem prices "crack" = Some (FloatCol ks) ->
  exists fig,
    Plotter.plot_crack_time_series quantile fmt1 prices today outpath = Plotter.Saved fig /\
    match Plotter.point fig with
    | Some (x, y, text) =>
        exists D i,
          x = Some D /\ d !! i = Some (Some D) /\ ks !! i = Some y /\
          is_nan y = false /\ text = (fmt1 y +:+ " USD/bbl")%string /\
          forall j z y',
            d !! j = Some (Some z) -> ks !! j = Some y' -> is_nan y' = false ->
            (z <= D)%Z
    | None =>
        forall j z y', d !! j = Some (Some z) -> ks !! j = Some y' -> is_nan y' = true
    end.
Proof.
  intros Hrows Hd Hk.
  destruct (PlotterFacts.plot_saved quantile fmt1 prices today outpath n d ks
              Hrows Hd Hk) as (xs & ys & Hplot & Hlen & _ & _ & Hperm).
  exists (Plotter.draw quantile fmt1 xs ys). split; [done|].
  assert (forall j z y',
            d !! j = Some (Some z) -> ks !! j = Some y' -> is_nan y' = false ->
            Some z ∈ xs) as Hdrawn.
  { intros j z y' Hj Hj' Hy.
    apply (elem_of_zip_l (Some z) y' xs ys). rewrite Hperm.
    apply list_elem_of_In, filter_In. split; [|by simpl; rewrite Hy].
    apply list_elem_of_In. eapply list_elem_of_lookup_2.
    rewrite lookup_zip_with, Hj. simpl. by rewrite Hj'. }
  simpl. destruct (Plotter.today_row xs ys) as [|[x y] rest] eqn:Hrow.
  - intros j z y' Hj Hj'. destruct (is_nan y') eqn:Hy; [done|].
    pose proof (PlotterFacts.today_row_None xs ys Hlen Hrow) as Hnone.
    rewrite Forall_forall in Hnone.
    by specialize (Hnone _ (Hdrawn j z y' Hj Hj' Hy)).
  - assert ((x, y) ∈ Plotter.today_row xs ys) as Hin by (rewrite Hrow; left).
    unfold Plotter.today_row in Hin.
    apply list_elem_of_In, filter_In in Hin as [Hin Hmax].
    apply bool_decide_eq_true_1 in Hmax. simpl in Hmax.
    destruct Hmax as [[D ->] Hmax].
    apply list_elem_of_In in Hin. rewrite Hperm in Hin.
    apply list_elem_of_In, filter_In in Hin as [Hin Hy].
    apply list_elem_of_In, list_elem_of_lookup_1 in Hin as [i Hi].
    apply lookup_zip_Some in Hi as [Hi Hi'].
    exists D, i. split_and!; try done.
    + simpl in Hy. by apply negb_true_iff in Hy.
    + intros j z y' Hj Hj' Hy'.
      apply (ExtendFacts.date_max_upper xs D z); [done|].
      by apply (Hdrawn j z y').
Qed.

Lemma chart_marks_latest_row_with_spread_witness :
  exists fig,
    Plotter.plot_crack_time_series (fun _ _ => nan) (fun _ => "x"%string) charted
      (Some 9%Z) "crack.png" = Plotter.Saved fig /\
    Plotter.point fig = Some (Some 3%Z, of_Z 30, "x USD/bbl"%string).
Proof.
  destruct (chart_marks_latest_row_with_spread
              (fun _ _ => nan) (fun _ => "x"%string) charted (Some 9%Z) "crack.png" 3
              [Some 3%Z; Some 1%Z; Some 2%Z] [of_Z 30; nan; of_Z 20])
    as (fig & Hfig & _); [by repeat constructor|done..|].
  exists fig. split; [done|].
  vm_compute in Hfig. injection Hfig as <-. by vm_compute.
Defined.
